(** * FacePlay Trigger: debouncers, trigger dispatcher and playback controller

    A shallow embedding of [main.py] (class [FacePlayTrigger]).  The object
    [self] becomes the record [Self]; everything the program reaches outside
    of itself (the file system, [subprocess], the output stream) becomes the
    record [World].  The image classifiers, the camera and the clock are
    inputs: a frame is given by what the cascades return on it and by the
    readings of [time.time()] taken while it is processed.

    Timestamps are Python floats in the source; here they are rationals
    ([Q]), so the comparisons are exact. *)

From Stdlib Require Import ZArith QArith Lqa Lia.
From stdpp Require Import base option list strings gmap.

Local Open Scope string_scope.
Local Open Scope nat_scope.
Local Open Scope list_scope.

(** ** Data model *)

(** A rectangle [(x, y, w, h)] as returned by [detectMultiScale]. *)
Definition Box : Type := Z * Z * Z * Z.

(** A [subprocess.Popen] object.  Its identity is the index of the [Popen]
    call that created it, so two handles are the same object iff they are
    equal. *)
Definition Proc : Type := nat.

(** One entry of [config["expressions"]] that carries the three keys the
    program reads, as every entry of the built-in configuration does
    (lines 60-82).  Entries read from [config.json] that lack some of them
    are the [JsonEntry] of the dispatcher's second model below. *)
Record ExprConfig := mkExprConfig {
  action : string;
  media_path : string;
  description : string
}.

(** The attributes of a [FacePlayTrigger] instance that the methods read or
    write ([__init__], lines 17-51).  The cascades and the capture device
    are external and appear as inputs instead. *)
Record Self := mkSelf {
  audio_process : option Proc;
  last_trigger_time : gmap string Q;
  trigger_cooldown : Q;
  config_expressions : gmap string ExprConfig;
  last_eye_count : nat;
  wink_frames : nat;
  smile_frames : nat;
  music_file : option string;
  is_smiling : bool;
  is_paused : bool;
  last_smile_check : Q;
  smile_check_interval : Q
}.

Definition set_audio_process (v : option Proc) (s : Self) : Self :=
  mkSelf v (last_trigger_time s) (trigger_cooldown s) (config_expressions s)
    (last_eye_count s) (wink_frames s) (smile_frames s) (music_file s)
    (is_smiling s) (is_paused s) (last_smile_check s) (smile_check_interval s).

Definition set_last_trigger_time (v : gmap string Q) (s : Self) : Self :=
  mkSelf (audio_process s) v (trigger_cooldown s) (config_expressions s)
    (last_eye_count s) (wink_frames s) (smile_frames s) (music_file s)
    (is_smiling s) (is_paused s) (last_smile_check s) (smile_check_interval s).

Definition set_last_eye_count (v : nat) (s : Self) : Self :=
  mkSelf (audio_process s) (last_trigger_time s) (trigger_cooldown s)
    (config_expressions s) v (wink_frames s) (smile_frames s) (music_file s)
    (is_smiling s) (is_paused s) (last_smile_check s) (smile_check_interval s).

Definition set_wink_frames (v : nat) (s : Self) : Self :=
  mkSelf (audio_process s) (last_trigger_time s) (trigger_cooldown s)
    (config_expressions s) (last_eye_count s) v (smile_frames s) (music_file s)
    (is_smiling s) (is_paused s) (last_smile_check s) (smile_check_interval s).

Definition set_smile_frames (v : nat) (s : Self) : Self :=
  mkSelf (audio_process s) (last_trigger_time s) (trigger_cooldown s)
    (config_expressions s) (last_eye_count s) (wink_frames s) v (music_file s)
    (is_smiling s) (is_paused s) (last_smile_check s) (smile_check_interval s).

Definition set_music_file (v : option string) (s : Self) : Self :=
  mkSelf (audio_process s) (last_trigger_time s) (trigger_cooldown s)
    (config_expressions s) (last_eye_count s) (wink_frames s) (smile_frames s) v
    (is_smiling s) (is_paused s) (last_smile_check s) (smile_check_interval s).

Definition set_is_smiling (v : bool) (s : Self) : Self :=
  mkSelf (audio_process s) (last_trigger_time s) (trigger_cooldown s)
    (config_expressions s) (last_eye_count s) (wink_frames s) (smile_frames s)
    (music_file s) v (is_paused s) (last_smile_check s) (smile_check_interval s).

Definition set_is_paused (v : bool) (s : Self) : Self :=
  mkSelf (audio_process s) (last_trigger_time s) (trigger_cooldown s)
    (config_expressions s) (last_eye_count s) (wink_frames s) (smile_frames s)
    (music_file s) (is_smiling s) v (last_smile_check s) (smile_check_interval s).

Definition set_last_smile_check (v : Q) (s : Self) : Self :=
  mkSelf (audio_process s) (last_trigger_time s) (trigger_cooldown s)
    (config_expressions s) (last_eye_count s) (wink_frames s) (smile_frames s)
    (music_file s) (is_smiling s) (is_paused s) v (smile_check_interval s).

(** The built-in configuration of [load_config] (lines 60-82). *)
Definition default_expressions : gmap string ExprConfig :=
  <[ "eyebrow_raise" :=
       mkExprConfig "play_youtube" "https://www.youtube.com/watch?v=VlZdCpPXLns"
         "Face movement triggers YouTube video" ]>
  (<[ "wink" :=
       mkExprConfig "play_local" "default_music.mp3" "Wink triggers local music" ]>
  (<[ "smile" :=
       mkExprConfig "play_youtube" "https://www.youtube.com/watch?v=DDQCO3Vykts"
         "Smile triggers YouTube video" ]> ∅)).

(** [__init__]: the state of a fresh instance, for the configuration that
    [load_config] found. *)
Definition init (expressions : gmap string ExprConfig) : Self :=
  {| audio_process := None;
     last_trigger_time :=
       <[ "eyebrow_raise" := 0%Q ]> (<[ "wink" := 0%Q ]> (<[ "smile" := 0%Q ]> ∅));
     trigger_cooldown := 3%Q;
     config_expressions := expressions;
     last_eye_count := 2;
     wink_frames := 0;
     smile_frames := 0;
     music_file := None;
     is_smiling := false;
     is_paused := false;
     last_smile_check := 0%Q;
     smile_check_interval := (3 # 2)%Q |}.

(** ** Signal debouncers *)

(** [detect_wink] (lines 99-119).  Returns the result and the new [self]. *)
Definition detect_wink (eyes : list Box) (s : Self) : bool * Self :=
  let current_eye_count := length eyes in
  if (last_eye_count s =? 2) && (current_eye_count =? 1) then
    (false, set_last_eye_count current_eye_count
              (set_wink_frames (wink_frames s + 1) s))
  else if (last_eye_count s =? 1) && (current_eye_count =? 2)
          && (0 <? wink_frames s) then
    if (1 <=? wink_frames s) && (wink_frames s <=? 8) then
      (true, set_last_eye_count current_eye_count (set_wink_frames 0 s))
    else
      (false, set_last_eye_count current_eye_count (set_wink_frames 0 s))
  else if current_eye_count =? 2 then
    if 0 <? wink_frames s then
      (false, set_last_eye_count current_eye_count (set_wink_frames 0 s))
    else
      (false, set_last_eye_count current_eye_count s)
  else
    (false, set_last_eye_count current_eye_count s).

(** [detect_smile] (lines 121-141).  [smiles] is what the smile cascade
    returns on the face region of the frame. *)
Definition detect_smile (smiles : list Box) (s : Self) : bool * Self :=
  if 0 <? length smiles then
    let s1 := set_smile_frames (smile_frames s + 1) s in
    if smile_frames s1 =? 3 then (true, s1) else (false, s1)
  else
    (false, set_smile_frames 0 s).

(** Feeding a detector one classifier result per frame; the list of what it
    returned, frame by frame, and the final state. *)
Fixpoint feed {A} (step : A → Self → bool * Self) (frames : list A) (s : Self)
  : list bool * Self :=
  match frames with
  | [] => ([], s)
  | x :: rest =>
      let '(b, s1) := step x s in
      let '(bs, s2) := feed step rest s1 in
      (b :: bs, s2)
  end.

Definition wink_events (frames : list (list Box)) (s : Self) : list bool :=
  (feed detect_wink frames s).1.

Definition smile_events (frames : list (list Box)) (s : Self) : list bool :=
  (feed detect_smile frames s).1.

(** A classifier result with [n] regions. *)
Definition boxes (n : nat) : list Box := replicate n (0, 0, 10, 10)%Z.

(** ** The world outside the program *)

(** The Python exceptions that occur in the modelled code. *)
Inductive Exn :=
| FileNotFoundError
| CalledProcessError
| OSError
| RecursionError
| KeyError
| AttributeError.

Global Instance Exn_eq_dec : EqDecision Exn.
Proof. solve_decision. Defined.

(** What a call into [subprocess] does: it returns, or it raises. *)
Inductive Outcome := Returns | Raises (e : Exn).

(** Observable effects, newest first in [log]. *)
Inductive Event :=
| Print (msg : string)
| PopenCall (args : list string)
| RunCall (args : list string)
| SendSignal (p : Proc) (sig : Z)
| Terminate (p : Proc)
| ThreadStart (target : string) (arg : string).

(** A rising ([false → true]) or falling ([true → false]) edge of
    [is_smiling]. *)
Inductive Edge := Rising | Falling.

Global Instance Edge_eq_dec : EqDecision Edge.
Proof. solve_decision. Defined.

(** - [path_exists]: the file system, as [os.path.exists] sees it;
    - [popen_outcome n], [run_outcome n]: what the [n]-th call of
      [subprocess.Popen], of [subprocess.run(..., check=True)] does;
    - [recursion_headroom]: how many nested calls of [play_music] from
      within itself the interpreter's recursion limit leaves room for;
    - [popen_calls], [run_calls]: the calls made so far;
    - [children]: the processes spawned on which [terminate()] has not
      been called.  This is the program's side of the matter only: whether
      a process has exited is for the operating system, and is not
      modelled ([terminate()] sends SIGTERM, which a process suspended by
      signal 19 does not act on before it is continued);
    - [log]: the effects so far, newest first;
    - [sample_times], [edges]: bookkeeping of the main loop, newest first:
      the clock readings at which the smile state was sampled, and the edges
      of [is_smiling] with the reading at which each was reported.  Nothing
      in the program reads them. *)
Record World := mkWorld {
  path_exists : string → bool;
  popen_outcome : nat → Outcome;
  run_outcome : nat → Outcome;
  recursion_headroom : nat;
  popen_calls : nat;
  run_calls : nat;
  children : list Proc;
  log : list Event;
  sample_times : list Q;
  edges : list (Q * Edge)
}.

Definition set_popen_calls (v : nat) (w : World) : World :=
  mkWorld (path_exists w) (popen_outcome w) (run_outcome w) (recursion_headroom w)
    v (run_calls w) (children w) (log w) (sample_times w) (edges w).

Definition set_run_calls (v : nat) (w : World) : World :=
  mkWorld (path_exists w) (popen_outcome w) (run_outcome w) (recursion_headroom w)
    (popen_calls w) v (children w) (log w) (sample_times w) (edges w).

Definition set_children (v : list Proc) (w : World) : World :=
  mkWorld (path_exists w) (popen_outcome w) (run_outcome w) (recursion_headroom w)
    (popen_calls w) (run_calls w) v (log w) (sample_times w) (edges w).

Definition set_log (v : list Event) (w : World) : World :=
  mkWorld (path_exists w) (popen_outcome w) (run_outcome w) (recursion_headroom w)
    (popen_calls w) (run_calls w) (children w) v (sample_times w) (edges w).

Definition set_sample_times (v : list Q) (w : World) : World :=
  mkWorld (path_exists w) (popen_outcome w) (run_outcome w) (recursion_headroom w)
    (popen_calls w) (run_calls w) (children w) (log w) v (edges w).

Definition set_edges (v : list (Q * Edge)) (w : World) : World :=
  mkWorld (path_exists w) (popen_outcome w) (run_outcome w) (recursion_headroom w)
    (popen_calls w) (run_calls w) (children w) (log w) (sample_times w) v.

(** The world at program start. *)
Definition fresh_world (exists_ : string → bool) (popen run : nat → Outcome)
    (headroom : nat) : World :=
  mkWorld exists_ popen run headroom 0 0 [] [] [] [].

(** ** A state and exception monad *)

Inductive Res (A : Type) := Ret (a : A) | Raise (e : Exn).
Arguments Ret {A} a.
Arguments Raise {A} e.

Definition St : Type := Self * World.

Definition M (A : Type) : Type := St → Res A * St.

Global Instance M_ret : MRet M := λ A a σ, (Ret a, σ).

Global Instance M_bind : MBind M := λ A B f m σ,
  match m σ with
  | (Ret a, σ1) => f a σ1
  | (Raise e, σ1) => (Raise e, σ1)
  end.

Definition raise {A} (e : Exn) : M A := λ σ, (Raise e, σ).

(** [try: body except e: handler]. *)
Definition try_except {A} (body : M A) (e : Exn) (handler : M A) : M A := λ σ,
  match body σ with
  | (Raise e', σ1) => if decide (e' = e) then handler σ1 else (Raise e', σ1)
  | r => r
  end.

Definition get_self : M Self := λ σ, (Ret σ.1, σ).
Definition get_world : M World := λ σ, (Ret σ.2, σ).
Definition modify_self (f : Self → Self) : M unit := λ σ, (Ret tt, (f σ.1, σ.2)).
Definition modify_world (f : World → World) : M unit := λ σ, (Ret tt, (σ.1, f σ.2)).

Definition print (msg : string) : M unit :=
  modify_world (λ w, set_log (Print msg :: log w) w).

(** [os.path.exists(path)]; the empty path never exists. *)
Definition file_exists (w : World) (path : string) : bool :=
  if decide (path = "") then false else path_exists w path.

Definition os_path_exists (path : string) : M bool :=
  w ← get_world;
  mret (file_exists w path).

(** [subprocess.Popen(args, ...)]: the new process object, or an exception. *)
Definition Popen (args : list string) : M Proc :=
  w ← get_world;
  let n := popen_calls w in
  modify_world (λ w, set_log (PopenCall args :: log w) (set_popen_calls (S n) w));;
  match popen_outcome w n with
  | Returns => modify_world (λ w, set_children (n :: children w) w);; mret n
  | Raises e => raise e
  end.

(** [subprocess.run(args, check=True)]. *)
Definition subprocess_run (args : list string) : M unit :=
  w ← get_world;
  let n := run_calls w in
  modify_world (λ w, set_log (RunCall args :: log w) (set_run_calls (S n) w));;
  match run_outcome w n with
  | Returns => mret tt
  | Raises e => raise e
  end.

(** [p.send_signal(sig)]: recorded in the log. *)
Definition send_signal (p : Proc) (sig : Z) : M unit :=
  modify_world (λ w, set_log (SendSignal p sig :: log w) w).

(** [p.terminate()]: the call is recorded in the log and [p] leaves
    [children], the processes on which it has not been called.  Nothing is
    said about when, or whether, [p] exits. *)
Definition terminate (p : Proc) : M unit :=
  modify_world (λ w,
    set_log (Terminate p :: log w)
      (set_children (filter (λ q, q ≠ p) (children w)) w)).

(** ** Playback controller *)

(** Python truthiness of [self.music_file]: neither [None] nor empty. *)
Definition truthy (o : option string) : bool :=
  match o with
  | Some path => negb (String.eqb path "")
  | None => false
  end.

(** [load_music] (lines 173-181). *)
Definition load_music (file_path : string) : M bool :=
  ex ← os_path_exists file_path;
  if ex : bool then
    modify_self (set_music_file (Some file_path));;
    print ("Music loaded: " +:+ file_path);;
    mret true
  else
    print ("Audio file not found: " +:+ file_path);;
    mret false.

(** [play_music] (lines 183-209).  The method calls itself at line 202;
    [headroom] is the number of such nested calls the interpreter still
    allows, beyond which the call raises [RecursionError]. *)
Fixpoint play_music (headroom : nat) : M unit :=
  s ← get_self;
  if negb (truthy (music_file s)) then mret tt
  else
    match audio_process s with
    | None =>
        try_except
          (p ← Popen ["mpg123"; "--loop"; "-1"; default "" (music_file s)];
           modify_self (set_audio_process (Some p));;
           modify_self (set_is_paused false);;
           print "Music playing")
          FileNotFoundError
          (print "mpg123 not found. Installing...";;
           try_except
             (subprocess_run ["sudo"; "apt"; "install"; "-y"; "mpg123"];;
              match headroom with
              | 0 => raise RecursionError
              | S h => play_music h
              end)
             CalledProcessError
             (print "Failed to install mpg123"))
    | Some p =>
        if is_paused s then
          send_signal p 18;;
          modify_self (set_is_paused false);;
          print "Music resumed"
        else mret tt
    end.

(** [pause_music] (lines 211-217). *)
Definition pause_music : M unit :=
  s ← get_self;
  match audio_process s with
  | Some p =>
      if negb (is_paused s) then
        send_signal p 19;;
        modify_self (set_is_paused true);;
        print "Music paused"
      else mret tt
  | None => mret tt
  end.

(** [stop_music] (lines 219-225). *)
Definition stop_music : M unit :=
  s ← get_self;
  match audio_process s with
  | Some p =>
      terminate p;;
      modify_self (set_audio_process None);;
      modify_self (set_is_paused false);;
      print "Music stopped"
  | None => mret tt
  end.

(** ** Trigger dispatcher *)

Definition Qltb (x y : Q) : bool := if Qlt_le_dec x y then true else false.
Definition Qgeb (x y : Q) : bool := negb (Qltb x y).

(** [threading.Thread(target=..., args=(arg,)).start()]: the action is
    handed to a new thread; what the thread does is outside the model. *)
Definition thread_start (target arg : string) : M unit :=
  modify_world (λ w, set_log (ThreadStart target arg :: log w) w).

(** [trigger_action] (lines 143-163) on a configuration whose entries
    carry all three keys; [now] is the reading of [time.time()] at line
    145.  The class has no attribute [play_local_audio], so evaluating
    [self.play_local_audio] at line 163 raises. *)
Definition trigger_action (expression_name : string) (now : Q) : M unit :=
  let current_time := now in
  s ← get_self;
  match last_trigger_time s !! expression_name with
  | None => raise KeyError
  | Some last =>
      if Qltb (current_time - last) (trigger_cooldown s) then mret tt
      else
        modify_self (λ s,
          set_last_trigger_time
            (<[expression_name := current_time]> (last_trigger_time s)) s);;
        match config_expressions s !! expression_name with
        | None => mret tt
        | Some expression_config =>
            print ("Triggered: " +:+ expression_name +:+ " -> "
                     +:+ description expression_config);;
            if String.eqb (action expression_config) "play_youtube" then
              thread_start "play_youtube" (media_path expression_config)
            else if String.eqb (action expression_config) "play_local" then
              raise AttributeError
            else mret tt
        end
  end.

(** ** Main loop *)

(** What one iteration of the loop over [faces] (lines 268-313) takes from
    outside: the face rectangle, the eyes the eye cascade finds in it, the
    reading of [time.time()] at line 288 and what the smile cascade of
    [detect_smile_state] finds in it. *)
Record FaceObs := mkFaceObs {
  face_box : Box;
  eyes : list Box;
  clock : Q;
  smiles : list Box
}.

(** What one iteration of [while True] (lines 251-320) takes from outside:
    the flag returned by [cap.read()], the faces of the frame in the order
    of the face cascade's result, and the key returned by [cv2.waitKey]. *)
Record Frame := mkFrame {
  ret : bool;
  faces : list FaceObs;
  key : Z
}.

(** [detect_smile_state] (lines 84-97), on the cascade's result. *)
Definition detect_smile_state (smiles : list Box) : bool :=
  0 <? length smiles.

Definition report_sample (t : Q) : M unit :=
  modify_world (λ w, set_sample_times (t :: sample_times w) w).

Definition report_edge (t : Q) (e : Edge) : M unit :=
  modify_world (λ w, set_edges ((t, e) :: edges w) w).

(** The body of [for (x, y, w, h) in faces] (lines 268-313); drawing is
    left out. *)
Definition process_face (f : FaceObs) : M unit :=
  let current_time := clock f in
  s ← get_self;
  if Qgeb (current_time - last_smile_check s) (smile_check_interval s) then
    modify_self (set_last_smile_check current_time);;
    report_sample current_time;;
    let current_smile_state := detect_smile_state (smiles f) in
    if current_smile_state && negb (is_smiling s) then
      modify_self (set_is_smiling true);;
      report_edge current_time Rising;;
      w ← get_world;
      play_music (recursion_headroom w)
    else if negb current_smile_state && is_smiling s then
      modify_self (set_is_smiling false);;
      report_edge current_time Falling;;
      pause_music
    else mret tt
  else mret tt.

Fixpoint for_each {A} (xs : list A) (body : A → M unit) : M unit :=
  match xs with
  | [] => mret tt
  | x :: rest => body x;; for_each rest body
  end.

Inductive LoopCtl := Continue | Break.

(** One iteration of [while True] (lines 252-320). *)
Definition loop_iteration (fr : Frame) : M LoopCtl :=
  if negb (ret fr) then mret Break
  else
    for_each (faces fr) process_face;;
    if (Z.land (key fr) 255 =? 113)%Z then mret Break else mret Continue.

(** The loop on the frames the camera delivers; when they run out the
    camera has failed, which ends the loop like [ret = False]. *)
Fixpoint main_loop (frames : list Frame) : M unit :=
  match frames with
  | [] => mret tt
  | fr :: rest =>
      c ← loop_iteration fr;
      match c with
      | Break => mret tt
      | Continue => main_loop rest
      end
  end.

(** The media path chosen at lines 232-241. *)
Definition configured_music_path (s : Self) : option string :=
  match config_expressions s !! "smile" with
  | Some smile_config =>
      if String.eqb (action smile_config) "play_local"
      then Some (media_path smile_config)
      else
        match config_expressions s !! "eyebrow_raise" with
        | Some eyebrow_config =>
            if String.eqb (action eyebrow_config) "play_local"
            then Some (media_path eyebrow_config) else None
        | None => None
        end
  | None =>
      match config_expressions s !! "eyebrow_raise" with
      | Some eyebrow_config =>
          if String.eqb (action eyebrow_config) "play_local"
          then Some (media_path eyebrow_config) else None
      | None => None
      end
  end.

(** [run] (lines 227-325). *)
Definition run (frames : list Frame) : M unit :=
  print "FacePlay Trigger started! Press 'q' to quit.";;
  s ← get_self;
  let music_path := configured_music_path s in
  (if truthy music_path then load_music (default "" music_path);; mret tt
   else mret tt);;
  print (String (Ascii.ascii_of_nat 10) "Controls:");;
  print "  - SMILE to play music";;
  print "  - STOP SMILING (frown/neutral) to pause music";;
  print "  - Music resumes where it left off";;
  main_loop frames;;
  stop_music.

(** * Vocabulary of the properties *)

(** ** Debouncers *)

(** The invariant of the wink counter.  [wink_frames] counts the
    transitions from two eyes to one, not the frames with one eye: it is
    reset on every frame with two eyes and so never exceeds 1. *)
Definition wink_inv (s : Self) : Prop :=
  wink_frames s ≤ 1 ∧ (last_eye_count s = 2 → wink_frames s = 0).

(** Whether the smile cascade found a smile in the frame. *)
Definition smile_present (smiles : list Box) : bool := 0 <? length smiles.

(** The number of consecutive smile frames at the end of a stream that was
    preceded by a run of [n] such frames. *)
Fixpoint run_length_from (n : nat) (bs : list bool) : nat :=
  match bs with
  | [] => n
  | true :: rest => run_length_from (S n) rest
  | false :: rest => run_length_from 0 rest
  end.

Definition run_length (bs : list bool) : nat := run_length_from 0 bs.

(** What the detector returns along a maximal run of [n] smile frames: a
    single [True], on the third frame, when the run has one. *)
Definition onset_pattern (n : nat) : list bool :=
  replicate (n `min` 2) false
  ++ (if 3 <=? n then true :: replicate (n - 3) false else []).

(** ** Dispatcher and playback controller *)

(** The new [self] after a call outside the window, whatever becomes of the
    action. *)
Definition record_trigger (e : string) (now : Q) (s : Self) : Self :=
  set_last_trigger_time (<[e := now]> (last_trigger_time s)) s.

Inductive PlaybackState := Stopped | Playing | Paused.

(** The logical playback state, read off [is_paused] and the handle. *)
Definition playback_state (s : Self) : PlaybackState :=
  if is_paused s then Paused
  else match audio_process s with
       | Some _ => Playing
       | None => Stopped
       end.

(** The processes a handle owns. *)
Definition owned (s : Self) : list Proc := option_list (audio_process s).

(** The invariant of the controller: the handle is there iff the state is
    [Playing] or [Paused], i.e. [is_paused] implies a handle, and the
    processes spawned on which [terminate()] has not been called are the
    one the handle holds, if any. *)
Definition playback_inv (σ : St) : Prop :=
  (audio_process σ.1 ≠ None
   ↔ playback_state σ.1 = Playing ∨ playback_state σ.1 = Paused) ∧
  (is_paused σ.1 = true → audio_process σ.1 ≠ None) ∧
  children σ.2 = owned σ.1 ∧
  length (children σ.2) ≤ 1.

(** What a call into the controller may do to [self] and to [children]:
    nothing, spawn a process into an empty handle, resume, suspend, or call
    [terminate()] on the process of the handle. *)
Inductive playback_effect (σ σ' : St) : Prop :=
| effect_none :
    σ'.1 = σ.1 → children σ'.2 = children σ.2 → playback_effect σ σ'
| effect_spawn p :
    audio_process σ.1 = None → truthy (music_file σ.1) = true →
    σ'.1 = set_is_paused false (set_audio_process (Some p) σ.1) →
    children σ'.2 = p :: children σ.2 → playback_effect σ σ'
| effect_resume p :
    audio_process σ.1 = Some p → is_paused σ.1 = true →
    truthy (music_file σ.1) = true →
    σ'.1 = set_is_paused false σ.1 →
    children σ'.2 = children σ.2 → playback_effect σ σ'
| effect_suspend p :
    audio_process σ.1 = Some p → is_paused σ.1 = false →
    σ'.1 = set_is_paused true σ.1 →
    children σ'.2 = children σ.2 → playback_effect σ σ'
| effect_terminate p :
    audio_process σ.1 = Some p →
    σ'.1 = set_is_paused false (set_audio_process None σ.1) →
    children σ'.2 = filter (λ q, q ≠ p) (children σ.2) → playback_effect σ σ'
| effect_load path :
    path ≠ "" →
    σ'.1 = set_music_file (Some path) σ.1 →
    children σ'.2 = children σ.2 → playback_effect σ σ'.

(** What no call into the controller touches: the oracles of the world, the
    bookkeeping of the sampler, and the fields of [self] that belong to the
    debouncers, the dispatcher and the sampler. *)
Definition same_outside (σ σ' : St) : Prop :=
  path_exists σ'.2 = path_exists σ.2 ∧
  popen_outcome σ'.2 = popen_outcome σ.2 ∧
  run_outcome σ'.2 = run_outcome σ.2 ∧
  recursion_headroom σ'.2 = recursion_headroom σ.2 ∧
  sample_times σ'.2 = sample_times σ.2 ∧
  edges σ'.2 = edges σ.2 ∧
  is_smiling σ'.1 = is_smiling σ.1 ∧
  last_smile_check σ'.1 = last_smile_check σ.1 ∧
  smile_check_interval σ'.1 = smile_check_interval σ.1.

(** The world after the [n]-th call of [Popen] has been made. *)
Definition after_popen_call (args : list string) (w : World) : World :=
  set_log (PopenCall args :: log w) (set_popen_calls (S (popen_calls w)) w).

Definition after_run_call (args : list string) (w : World) : World :=
  set_log (RunCall args :: log w) (set_run_calls (S (run_calls w)) w).

Definition mpg123_args (s : Self) : list string :=
  ["mpg123"; "--loop"; "-1"; default "" (music_file s)].

Definition install_args : list string :=
  ["sudo"; "apt"; "install"; "-y"; "mpg123"].

(** The state in which the installation is attempted, after the spawn has
    failed for want of the binary. *)
Definition before_install (σ : St) : St :=
  (σ.1, set_log (Print "mpg123 not found. Installing..." :: PopenCall (mpg123_args σ.1)
                 :: log σ.2)
          (set_popen_calls (S (popen_calls σ.2)) σ.2)).

(** Two states that differ at most in the log and the call counters. *)
Definition only_logged (σ σ' : St) : Prop :=
  σ'.1 = σ.1 ∧ children σ'.2 = children σ.2 ∧ same_outside σ σ'.

Definition controller_step (σ σ' : St) : Prop :=
  playback_effect σ σ' ∧ same_outside σ σ'.

(** A world in which every file exists, every spawn and every installation
    succeeds. *)
Definition kind_world : World :=
  fresh_world (λ _, true) (λ _, Returns) (λ _, Returns) 10.

(** A fresh instance that has loaded its music. *)
Definition loaded_state (w : World) : St :=
  (load_music "song3.mp3" (init default_expressions, w)).2.


(** ** Main loop *)

(** A relation that every step of a computation respects. *)
Definition stable (R : St → St → Prop) {A} (m : M A) : Prop :=
  ∀ σ, R σ (m σ).2.

(** The relation of states between which a property is kept. *)
Definition keeps (P : St → Prop) (σ σ' : St) : Prop := P σ → P σ'.

(** The state in which the smile is sampled at clock reading [t]. *)
Definition sampled_at (t : Q) (σ : St) : St :=
  (set_last_smile_check t σ.1, set_sample_times (t :: sample_times σ.2) σ.2).

Definition edge_at (t : Q) (e : Edge) (σ : St) : St :=
  (set_is_smiling (if decide (e = Rising) then true else false) σ.1,
   set_edges ((t, e) :: edges σ.2) σ.2).

(** The states reached from a fresh instance by calls into the controller
    and iterations of the main loop. *)
Inductive controller_reachable : St → Prop :=
| reach_init cfg ex po ru h :
    controller_reachable (init cfg, fresh_world ex po ru h)
| reach_load path σ :
    controller_reachable σ → controller_reachable (load_music path σ).2
| reach_play h σ :
    controller_reachable σ → controller_reachable (play_music h σ).2
| reach_pause σ :
    controller_reachable σ → controller_reachable (pause_music σ).2
| reach_stop σ :
    controller_reachable σ → controller_reachable (stop_music σ).2
| reach_frame fr σ :
    controller_reachable σ → controller_reachable (loop_iteration fr σ).2.

(** A process is only ever spawned for loaded media. *)
Definition media_inv (σ : St) : Prop :=
  audio_process σ.1 ≠ None → truthy (music_file σ.1) = true.

(** Clock readings, newest first, each at least [I] after every older
    one. *)
Fixpoint spaced (I : Q) (ts : list Q) : Prop :=
  match ts with
  | [] => True
  | t :: older => Forall (λ u, (I <= t - u)%Q) older ∧ spaced I older
  end.

(** Edges, newest first, that alternate, start with a rising edge and
    leave [is_smiling] at [cur]. *)
Fixpoint alternates (es : list (Q * Edge)) (cur : bool) : Prop :=
  match es with
  | [] => cur = false
  | (_, Rising) :: older => cur = true ∧ alternates older false
  | (_, Falling) :: older => cur = false ∧ alternates older true
  end.

(** What the sampler maintains. *)
Definition sampler_inv (σ : St) : Prop :=
  (0 <= smile_check_interval σ.1)%Q ∧
  Forall (λ u, (u <= last_smile_check σ.1)%Q) (sample_times σ.2) ∧
  spaced (smile_check_interval σ.1) (sample_times σ.2) ∧
  Forall (λ e : Q * Edge, (e.1 <= last_smile_check σ.1)%Q ∧ e.1 ∈ sample_times σ.2)
    (edges σ.2) ∧
  spaced (smile_check_interval σ.1) (map fst (edges σ.2)) ∧
  alternates (edges σ.2) (is_smiling σ.1).

(** ** Further vocabulary: debouncers *)

(** The eye count before a stream of counts begins: that of the last frame,
    or the 2 of a fresh instance. *)
Definition previous_count (cs : list nat) : nat := default 2 (last cs).

(** A candidate wink is open at the end of a stream of eye counts: at some
    frame the count went from two to one, and no frame since had two
    eyes. *)
Definition wink_pending (cs : list nat) : Prop :=
  ∃ a b, cs = a ++ 1 :: b ∧ previous_count a = 2 ∧ 2 ∉ b.

(** ** Further vocabulary: dispatcher *)

(** A sequence of dispatches [(expression, time)], each made in the state
    the one before left, whatever it returned or raised. *)
Fixpoint dispatch_all (calls : list (string * Q)) (σ : St) : St :=
  match calls with
  | [] => σ
  | (e, t) :: rest => dispatch_all rest (trigger_action e t σ).2
  end.

Definition is_thread_start (ev : Event) : bool :=
  match ev with
  | ThreadStart _ _ => true
  | _ => false
  end.

(** The threads started so far, newest first. *)
Definition threads_started (w : World) : list Event :=
  filter (λ ev, Is_true (is_thread_start ev)) (log w).

(** ** Further vocabulary: the configuration read from [config.json] *)

(** An entry of [config["expressions"]] as [json.load] delivers it from
    [config.json]: a dict with string values, in which any of the keys may
    be missing.  An empty dict is falsy (line 152), like the [None] that
    [.get] returns for a missing entry and that a JSON [null] becomes; an
    entry that is [null] is therefore a missing one here. *)
Notation JsonEntry := (gmap string string).

(** [self.config] as far as the dispatcher reads it: the dict under the key
    "expressions", or [None] when the file has no such key. *)
Notation JsonConfig := (option (gmap string JsonEntry)).

(** The entry that an [ExprConfig] stands for. *)
Definition complete_entry (c : ExprConfig) : JsonEntry :=
  <["action" := action c]>
    (<["media_path" := media_path c]> (<["description" := description c]> ∅)).

Definition complete_config (expressions : gmap string ExprConfig) : JsonConfig :=
  Some (complete_entry <$> expressions).

(** [d[key]] on a dict: the value, or [KeyError]. *)
Definition getitem {V} (d : gmap string V) (key : string) : M V :=
  match d !! key with
  | Some v => mret v
  | None => raise KeyError
  end.

(** [trigger_action] (lines 143-163) with [self.config] as read from
    [config.json].  Line 146 subscripts [last_trigger_time], line 151
    [self.config], lines 155, 156 and 158 the entry; the entry's
    description is read while the line to print is being built, so a
    [KeyError] there comes before anything is printed. *)
Definition trigger_action_json (config : JsonConfig) (expression_name : string)
    (now : Q) : M unit :=
  let current_time := now in
  s ← get_self;
  last ← getitem (last_trigger_time s) expression_name;
  if Qltb (current_time - last) (trigger_cooldown s) then mret tt
  else
    modify_self (λ s,
      set_last_trigger_time
        (<[expression_name := current_time]> (last_trigger_time s)) s);;
    expressions ← match config with
                  | Some expressions => mret expressions
                  | None => raise KeyError
                  end;
    match expressions !! expression_name with
    | None => mret tt
    | Some expression_config =>
        if decide (expression_config = ∅) then mret tt
        else
          action ← getitem expression_config "action";
          media_path ← getitem expression_config "media_path";
          description ← getitem expression_config "description";
          print ("Triggered: " +:+ expression_name +:+ " -> " +:+ description);;
          if String.eqb action "play_youtube" then
            thread_start "play_youtube" media_path
          else if String.eqb action "play_local" then
            raise AttributeError
          else mret tt
    end.

(** A sequence of dispatches under the configuration [config]. *)
Fixpoint dispatch_all_json (config : JsonConfig) (calls : list (string * Q))
    (σ : St) : St :=
  match calls with
  | [] => σ
  | (e, t) :: rest =>
      dispatch_all_json config rest (trigger_action_json config e t σ).2
  end.

(** The dispatch of [e] at [now] is outside the cooldown window. *)
Definition passes_gate (e : string) (now : Q) (σ : St) : Prop :=
  ∃ last, last_trigger_time σ.1 !! e = Some last ∧
          (trigger_cooldown σ.1 <= now - last)%Q.

(** An entry that line 152 lets pass and that lacks one of the keys read
    at lines 155-158. *)
Definition incomplete (entry : JsonEntry) : Prop :=
  entry ≠ ∅ ∧
  (entry !! "action" = None ∨ entry !! "media_path" = None
   ∨ entry !! "description" = None).

(** The configuration has no key "expressions", or its entry for [e] is
    incomplete. *)
Definition lacks_key (config : JsonConfig) (e : string) : Prop :=
  match config with
  | None => True
  | Some expressions =>
      match expressions !! e with
      | Some entry => incomplete entry
      | None => False
      end
  end.

(** ** Further vocabulary: playback and main loop *)

(** A computation keeps [I], and where it raises it leaves a state in
    [N]. *)
Definition guarded (I N : St → Prop) {A} (m : M A) : Prop :=
  ∀ σ, I σ → I (m σ).2 ∧ ∀ e, (m σ).1 = Raise e → N (m σ).2.

Definition is_process_event (ev : Event) : bool :=
  match ev with
  | PopenCall _ | RunCall _ | SendSignal _ _ | Terminate _ => true
  | _ => false
  end.

(** What the program has done to processes so far, newest first: spawn and
    installation attempts, signals, terminations. *)
Definition process_events (w : World) : list Event :=
  filter (λ ev, Is_true (is_process_event ev)) (log w).

(** No media loaded, no process, and nothing done to processes beyond
    [evs]. *)
Definition silent (evs : list Event) (σ : St) : Prop :=
  truthy (music_file σ.1) = false ∧ audio_process σ.1 = None ∧
  process_events σ.2 = evs.

(** Media is loaded, the player can always be spawned, and the music plays
    exactly while [is_smiling] holds. *)
Definition follows_smile (σ : St) : Prop :=
  truthy (music_file σ.1) = true ∧
  (∀ n, popen_outcome σ.2 n = Returns) ∧
  (is_smiling σ.1 = true ↔ playback_state σ.1 = Playing).

(** The state in which [run] enters its loop: the banner printed, the
    configured music loaded if there is any, the controls printed (lines
    229-249). *)
Definition after_startup (σ : St) : St :=
  let σ1 := (print "FacePlay Trigger started! Press 'q' to quit." σ).2 in
  let σ2 := if truthy (configured_music_path σ1.1)
            then (load_music (default "" (configured_music_path σ1.1)) σ1).2
            else σ1 in
  (print "  - Music resumes where it left off"
     (print "  - STOP SMILING (frown/neutral) to pause music"
        (print "  - SMILE to play music"
           (print (String (Ascii.ascii_of_nat 10) "Controls:") σ2).2).2).2).2.

(** A frame that ends the loop: the camera failed or the quit key was
    pressed. *)
Definition ends_loop (fr : Frame) : Prop :=
  ret fr = false ∨ Z.land (key fr) 255 = 113%Z.

(** [load_config] (lines 53-82).  [config_json] is what [json.load] makes
    of the file [config.json], or [None] when opening the file raises
    [FileNotFoundError]. *)
Definition load_config (config_json : option (gmap string ExprConfig))
  : gmap string ExprConfig :=
  match config_json with
  | Some config => config
  | None => default_expressions
  end.

(** [main] (lines 327-329): a fresh instance, then [run]. *)
Definition main (config_json : option (gmap string ExprConfig))
    (frames : list Frame) (w : World) : Res unit * St :=
  run frames (init (load_config config_json), w).

(** Nothing has passed through the detectors or the dispatcher between two
    states: their fields and the threads started are the same. *)
Definition undispatched (σ σ' : St) : Prop :=
  last_eye_count σ'.1 = last_eye_count σ.1 ∧
  wink_frames σ'.1 = wink_frames σ.1 ∧
  smile_frames σ'.1 = smile_frames σ.1 ∧
  last_trigger_time σ'.1 = last_trigger_time σ.1 ∧
  threads_started σ'.2 = threads_started σ.2.

(** * The audio test script ([test_audio.py])

    The script has its own small world: it probes players with
    [subprocess.run(..., timeout=2)], which returns an exit code or raises,
    spawns one with [subprocess.Popen] and terminates it after three
    seconds. *)

Inductive TaExn :=
| TaTimeoutExpired
| TaFileNotFoundError
| TaCalledProcessError
| TaOSError.

Global Instance TaExn_eq_dec : EqDecision TaExn.
Proof. solve_decision. Defined.

(** What a call of [subprocess.run] does: it returns with the exit code of
    the command, or raises. *)
Inductive TaRun := TaExit (returncode : Z) | TaRunRaises (e : TaExn).

(** What a call of [subprocess.Popen] does. *)
Inductive TaSpawn := TaSpawned | TaSpawnRaises (e : TaExn).

(** The script's effects, newest first in [ta_trace].  [TaPrintExn prefix e]
    is [print(f"{prefix}{e}")]: the prefix followed by the text of the
    exception [e], which for a [CalledProcessError] names the command and
    its exit status and is not rendered here. *)
Inductive TaEvent :=
| TaPrint (msg : string)
| TaPrintExn (prefix : string) (e : TaExn)
| TaRunCall (args : list string)
| TaPopenCall (args : list string)
| TaSleep (seconds : Z)
| TaTerminate (p : Proc).

(** The environment of the script: whether the audio file exists and its
    size, and what the [n]-th call of [subprocess.run], of
    [subprocess.Popen] does. *)
Record TaEnv := mkTaEnv {
  ta_file_exists : bool;
  ta_file_size : string;
  ta_run_result : nat → TaRun;
  ta_spawn_result : nat → TaSpawn
}.

(** The calls made, the processes spawned on which [terminate()] has not
    been called, the effects. *)
Record TaState := mkTaState {
  ta_runs : nat;
  ta_spawns : nat;
  ta_alive : list Proc;
  ta_trace : list TaEvent
}.

Definition ta_start : TaState := mkTaState 0 0 [] [].

Definition ta_print (msg : string) (st : TaState) : TaState :=
  mkTaState (ta_runs st) (ta_spawns st) (ta_alive st) (TaPrint msg :: ta_trace st).

Definition ta_print_exn (prefix : string) (e : TaExn) (st : TaState) : TaState :=
  mkTaState (ta_runs st) (ta_spawns st) (ta_alive st)
    (TaPrintExn prefix e :: ta_trace st).

(** [subprocess.run(args, ...)]: the result of the call and the state after
    it. *)
Definition ta_run (env : TaEnv) (args : list string) (st : TaState)
  : TaRun * TaState :=
  (ta_run_result env (ta_runs st),
   mkTaState (S (ta_runs st)) (ta_spawns st) (ta_alive st)
     (TaRunCall args :: ta_trace st)).

(** [subprocess.run(args, check=True)]: a non-zero exit code raises
    [CalledProcessError]. *)
Definition ta_run_checked (env : TaEnv) (args : list string) (st : TaState)
  : TaRun * TaState :=
  match ta_run env args st with
  | (TaExit code, st1) =>
      if (code =? 0)%Z then (TaExit code, st1)
      else (TaRunRaises TaCalledProcessError, st1)
  | r => r
  end.

(** [proc = subprocess.Popen(args, ...)]; the process object is the index
    of the call. *)
Definition ta_popen (env : TaEnv) (args : list string) (st : TaState)
  : (TaExn + Proc) * TaState :=
  let st1 := mkTaState (ta_runs st) (S (ta_spawns st)) (ta_alive st)
               (TaPopenCall args :: ta_trace st) in
  match ta_spawn_result env (ta_spawns st) with
  | TaSpawned =>
      (inr (ta_spawns st),
       mkTaState (ta_runs st1) (ta_spawns st1) (ta_spawns st :: ta_alive st1)
         (ta_trace st1))
  | TaSpawnRaises e => (inl e, st1)
  end.

(** [time.sleep(3)] then [proc.terminate()]. *)
Definition ta_sleep_terminate (p : Proc) (st : TaState) : TaState :=
  mkTaState (ta_runs st) (ta_spawns st) (filter (λ q, q ≠ p) (ta_alive st))
    (TaTerminate p :: TaSleep 3 :: ta_trace st).

Definition audio_file : string := "/home/roman/face_music/song3.mp3".

(** The list [players] of lines 24-29. *)
Definition players : list (list string) :=
  [ ["mpg123"; audio_file];
    ["ffplay"; "-nodisp"; "-autoexit"; audio_file];
    ["aplay"; audio_file];
    ["paplay"; audio_file] ].

(** How the loop over the players, or the script, ends. *)
Inductive TaEnd := TaReturned | TaFellThrough | TaEscaped (e : TaExn).

(** The exceptions of [except (subprocess.TimeoutExpired,
    FileNotFoundError)] at line 46. *)
Definition ta_player_unavailable (e : TaExn) : bool :=
  match e with
  | TaTimeoutExpired | TaFileNotFoundError => true
  | _ => false
  end.

(** The loop [for player in players] (lines 31-48): [TaReturned] when a
    player was played and the function returned from within the loop,
    [TaFellThrough] when the list was exhausted. *)
Fixpoint ta_try_players (env : TaEnv) (ps : list (list string)) (st : TaState)
  : TaEnd * TaState :=
  match ps with
  | [] => (TaFellThrough, st)
  | player :: rest =>
      let name := default "" (head player) in
      let st1 := ta_print ("Trying " +:+ name +:+ "...") st in
      match ta_run env [name; "--version"] st1 with
      | (TaExit code, st2) =>
          if (code =? 0)%Z then
            let st3 := ta_print ("Playing with " +:+ name +:+ "...")
                         (ta_print (name +:+ " is available") st2) in
            match ta_popen env player st3 with
            | (inr proc, st4) =>
                (TaReturned,
                 ta_print ("Stopped " +:+ name) (ta_sleep_terminate proc st4))
            | (inl e, st4) =>
                if ta_player_unavailable e then
                  ta_try_players env rest
                    (ta_print (name +:+ " not available") st4)
                else (TaEscaped e, st4)
            end
          else ta_try_players env rest st2
      | (TaRunRaises e, st2) =>
          if ta_player_unavailable e then
            ta_try_players env rest (ta_print (name +:+ " not available") st2)
          else (TaEscaped e, st2)
      end
  end.

(** The handler of [except subprocess.CalledProcessError as e] at lines
    62-63, which prints [f"Failed to install mpg123: {e}"]; any other
    exception escapes. *)
Definition ta_install_failed (e : TaExn) (st : TaState) : TaEnd * TaState :=
  if decide (e = TaCalledProcessError)
  then (TaReturned, ta_print_exn "Failed to install mpg123: " e st)
  else (TaEscaped e, st).

(** Lines 50-63: installing the player and playing with it. *)
Definition ta_install_and_play (env : TaEnv) (st : TaState) : TaEnd * TaState :=
  let st0 := ta_print "No suitable audio player found. Installing mpg123..." st in
  match ta_run_checked env ["sudo"; "apt"; "update"] st0 with
  | (TaRunRaises e, st1) => ta_install_failed e st1
  | (TaExit _, st1) =>
      match ta_run_checked env ["sudo"; "apt"; "install"; "-y"; "mpg123"] st1 with
      | (TaRunRaises e, st2) => ta_install_failed e st2
      | (TaExit _, st2) =>
          let st3 := ta_print "Playing with newly installed mpg123..." st2 in
          match ta_popen env ["mpg123"; audio_file] st3 with
          | (inr proc, st4) =>
              (TaReturned,
               ta_print "Audio test complete" (ta_sleep_terminate proc st4))
          | (inl e, st4) => ta_install_failed e st4
          end
      end
  end.

(** [test_audio] (lines 10-63). *)
Definition test_audio (env : TaEnv) (st : TaState) : TaEnd * TaState :=
  let st1 := ta_print ("Testing audio file: " +:+ audio_file) st in
  if negb (ta_file_exists env) then
    (TaReturned, ta_print ("ERROR: File not found: " +:+ audio_file) st1)
  else
    let st2 := ta_print ("File exists: " +:+ ta_file_size env +:+ " bytes") st1 in
    match ta_try_players env players st2 with
    | (TaFellThrough, st3) => ta_install_and_play env st3
    | r => r
    end.

(** The processes the script has terminated, newest first. *)
Definition ta_terminated (st : TaState) : list Proc :=
  omap (λ ev, match ev with TaTerminate p => Some p | _ => None end)
    (ta_trace st).

(** The commands the script has run with [subprocess.run], newest first. *)
Definition ta_commands (st : TaState) : list (list string) :=
  omap (λ ev, match ev with TaRunCall args => Some args | _ => None end)
    (ta_trace st).

(** The commands the script has tried to spawn, newest first. *)
Definition ta_spawn_attempts (st : TaState) : list (list string) :=
  omap (λ ev, match ev with TaPopenCall args => Some args | _ => None end)
    (ta_trace st).

(** A probe that does not find its player: a non-zero exit code, a timeout
    or a missing binary. *)
Definition ta_probe_fails (r : TaRun) : Prop :=
  match r with
  | TaExit code => code ≠ 0%Z
  | TaRunRaises e => ta_player_unavailable e = true
  end.

(** The probe of a player: its binary with [--version]. *)
Definition ta_probe (player : list string) : list string :=
  [default "" (head player); "--version"].

(** * Properties *)

(** ** Wink detector *)

Ltac bool_facts :=
  repeat match goal with
  | H : (_ && _) = true |- _ => apply andb_true_iff in H as [? ?]
  | H : (_ && _) = false |- _ => apply andb_false_iff in H
  | H : (_ =? _) = true |- _ => apply Nat.eqb_eq in H
  | H : (_ =? _) = false |- _ => apply Nat.eqb_neq in H
  | H : (_ <? _) = true |- _ => apply Nat.ltb_lt in H
  | H : (_ <? _) = false |- _ => apply Nat.ltb_ge in H
  | H : (_ <=? _) = true |- _ => apply Nat.leb_le in H
  | H : (_ <=? _) = false |- _ => apply Nat.leb_gt in H
  end.

Lemma detect_wink_inv eyes s : wink_inv s → wink_inv (detect_wink eyes s).2.
Proof.
  intros [Hle H2]. unfold wink_inv, detect_wink.
  repeat case_match; simpl; bool_facts; split; intros; lia.
Qed.

Lemma feed_inv {A} (step : A → Self → bool * Self) (P : Self → Prop) :
  (∀ x s, P s → P (step x s).2) →
  ∀ frames s, P s → P (feed step frames s).2.
Proof.
  intros Hstep frames. induction frames as [|x rest IH]; intros s Hs; [done|].
  simpl. specialize (Hstep x s Hs). destruct (step x s) as [b s1].
  specialize (IH s1 Hstep). destruct (feed step rest s1). done.
Qed.

(** X1.  On every stream of eye results fed to a fresh instance,
    [wink_frames] is at most 1: the counter is incremented only when the
    count goes from two to one and is reset by every frame with two eyes.
    The upper bound 8 of the test at line 108 is never reached. *)
Lemma wink_frames_le_1 frames cfg :
  wink_frames (feed detect_wink frames (init cfg)).2 ≤ 1.
Proof.
  apply (feed_inv detect_wink wink_inv).
  - intros. by apply detect_wink_inv.
  - split; [simpl; lia | done].
Qed.

Lemma feed_app {A} (step : A → Self → bool * Self) (xs ys : list A) s :
  feed step (xs ++ ys) s =
  ((feed step xs s).1 ++ (feed step ys (feed step xs s).2).1,
   (feed step ys (feed step xs s).2).2).
Proof.
  revert s. induction xs as [|x xs IH]; intros s; simpl.
  - by destruct (feed step ys s).
  - destruct (step x s) as [b s1]. rewrite IH.
    destruct (feed step xs s1) as [bs s2]. simpl.
    by destruct (feed step ys s2).
Qed.

(** While the eye stays closed nothing is emitted and the counter stays
    where the first one-eye frame left it. *)
Lemma feed_wink_one_eye frames s :
  Forall (λ e : list Box, length e = 1) frames →
  last_eye_count s = 1 → wink_frames s = 1 →
  (feed detect_wink frames s).1 = replicate (length frames) false ∧
  last_eye_count (feed detect_wink frames s).2 = 1 ∧
  wink_frames (feed detect_wink frames s).2 = 1.
Proof.
  intros HF. revert s. induction HF as [|e rest He _ IH]; intros s Hl Hw; [done|].
  simpl. assert (detect_wink e s = (false, set_last_eye_count 1 s)) as ->.
  { unfold detect_wink. rewrite Hl, He. done. }
  destruct (IH (set_last_eye_count 1 s)) as (IH1 & IH2 & IH3); [done..|].
  destruct (feed detect_wink rest _) as [bs s2]. simpl in *.
  by rewrite IH1.
Qed.

Lemma feed_cons {A} (step : A → Self → bool * Self) x rest s :
  feed step (x :: rest) s =
  ((step x s).1 :: (feed step rest (step x s).2).1,
   (feed step rest (step x s).2).2).
Proof.
  simpl. destruct (step x s) as [b s1]. simpl.
  by destruct (feed step rest s1).
Qed.

Lemma detect_wink_eyes_open e s :
  last_eye_count s = 2 → wink_frames s = 0 → length e = 2 →
  detect_wink e s = (false, set_last_eye_count 2 s).
Proof. intros Hl Hw He. unfold detect_wink. by rewrite Hl, Hw, He. Qed.

Lemma detect_wink_eye_closes e s :
  last_eye_count s = 2 → length e = 1 →
  detect_wink e s =
  (false, set_last_eye_count 1 (set_wink_frames (wink_frames s + 1) s)).
Proof. intros Hl He. unfold detect_wink. by rewrite Hl, He. Qed.

Lemma detect_wink_eye_reopens e s :
  last_eye_count s = 1 → wink_frames s = 1 → length e = 2 →
  detect_wink e s = (true, set_last_eye_count 2 (set_wink_frames 0 s)).
Proof. intros Hl Hw He. unfold detect_wink. by rewrite Hl, Hw, He. Qed.

(** C1.  The claim wants a run of nine one-eye frames between two-eye frames
    not to fire.  The code fires the wink when the eyes reopen after a run
    of one-eye frames of any length [k + 1]: on the eye counts
    [2, 1, ..., 1, 2] the detector returns [False] on every frame but the
    last and [True] on the last. *)
Theorem detect_wink_fires_after_any_run (k : nat) (frames : list (list Box)) cfg :
  map length frames = 2 :: replicate (S k) 1 ++ [2] →
  wink_events frames (init cfg) = replicate (S (S k)) false ++ [true].
Proof.
  intros Hlen. unfold wink_events.
  destruct frames as [|e0 [|e1 frames]]; try discriminate.
  simpl in Hlen. injection Hlen as H0 H1 Hrest.
  apply fmap_app_inv in Hrest as (ones & lst & Hones & Hlst & ->).
  destruct lst as [|e2 [|? ?]]; try discriminate. injection Hlst as H2.
  rewrite feed_cons, (detect_wink_eyes_open e0) by done. cbn [fst snd].
  rewrite feed_cons, (detect_wink_eye_closes e1) by done. cbn [fst snd].
  rewrite feed_app. cbn [fst snd].
  set (s2 := set_last_eye_count 1 _).
  destruct (feed_wink_one_eye ones s2) as (E1 & E2 & E3); [|done..|].
  { apply Forall_forall. intros e He.
    assert (length e ∈ replicate k 1) as Hin
      by (rewrite Hones; by apply list_elem_of_fmap_2).
    by apply elem_of_replicate in Hin as [-> _]. }
  rewrite E1.
  assert (length ones = k) as ->.
  { rewrite <- (length_fmap length), <- Hones. apply length_replicate. }
  rewrite feed_cons, (detect_wink_eye_reopens e2) by done.
  reflexivity.
Qed.

(** The failing input of C1: nine one-eye frames. *)
Lemma detect_wink_fires_after_any_run_witness :
  wink_events (map boxes [2;1;1;1;1;1;1;1;1;1;2]) (init default_expressions)
  = [false;false;false;false;false;false;false;false;false;false;true].
Proof.
  apply (detect_wink_fires_after_any_run 8
           (map boxes [2;1;1;1;1;1;1;1;1;1;2]) default_expressions).
  reflexivity.
Defined.

(** ** Smile onset detector *)

Lemma detect_smile_step smiles s :
  detect_smile smiles s =
  if smile_present smiles
  then (smile_frames s + 1 =? 3, set_smile_frames (smile_frames s + 1) s)
  else (false, set_smile_frames 0 s).
Proof.
  unfold detect_smile, smile_present.
  destruct (0 <? length smiles); [|done]. simpl. by destruct (_ =? 3).
Qed.

(** The counter is the length of the current run. *)
Lemma smile_frames_feed frames s :
  smile_frames (feed detect_smile frames s).2
  = run_length_from (smile_frames s) (map smile_present frames).
Proof.
  revert s. induction frames as [|x rest IH]; intros s; [done|].
  rewrite feed_cons, detect_smile_step. cbn [snd map run_length_from].
  destruct (smile_present x); cbn [snd]; rewrite IH; simpl;
    by rewrite ?Nat.add_1_r.
Qed.

(** The detector returns [True] on a frame iff the run that ends with the
    frame has length 3. *)
Lemma smile_events_lookup frames s i :
  i < length frames →
  (feed detect_smile frames s).1 !! i
  = Some (run_length_from (smile_frames s)
            (take (S i) (map smile_present frames)) =? 3).
Proof.
  revert s i. induction frames as [|x rest IH]; intros s i Hi; simpl in Hi; [lia|].
  rewrite feed_cons, detect_smile_step. cbn [fst map].
  destruct i as [|i].
  - cbn [take run_length_from lookup list_lookup].
    destruct (smile_present x); cbn [fst]; simpl; by rewrite ?Nat.add_1_r.
  - change ((?a :: ?l) !! S i) with (l !! i).
    change (take (S (S i)) (?b :: ?l)) with (b :: take (S i) l).
    rewrite IH by lia.
    destruct (smile_present x); cbn [snd run_length_from]; simpl;
      by rewrite ?Nat.add_1_r.
Qed.

Lemma run_length_from_snoc_false n bs : run_length_from n (bs ++ [false]) = 0.
Proof.
  revert n. induction bs as [|b bs IH]; intros n; [done|].
  destruct b; simpl; apply IH.
Qed.

Lemma feed_smile_held frames s :
  Forall (λ x, smile_present x = true) frames → 3 ≤ smile_frames s →
  (feed detect_smile frames s).1 = replicate (length frames) false.
Proof.
  intros HF. revert s. induction HF as [|x rest Hx _ IH]; intros s Hs; [done|].
  rewrite feed_cons, detect_smile_step, Hx. cbn [fst snd length replicate].
  rewrite IH by (simpl; lia).
  f_equal. apply Nat.eqb_neq. lia.
Qed.

Lemma feed_smile_run frames s :
  Forall (λ x, smile_present x = true) frames → smile_frames s = 0 →
  (feed detect_smile frames s).1 = onset_pattern (length frames).
Proof.
  intros HF Hs.
  destruct HF as [|x1 ? H1 HF]; [done|].
  rewrite feed_cons, detect_smile_step, H1, Hs. cbn [fst snd].
  destruct HF as [|x2 ? H2 HF]; [done|].
  rewrite feed_cons, detect_smile_step, H2. cbn [fst snd].
  destruct HF as [|x3 ? H3 HF]; [done|].
  rewrite feed_cons, detect_smile_step, H3. cbn [fst snd].
  rewrite feed_smile_held by (done || simpl; lia).
  unfold onset_pattern. simpl. by rewrite Nat.sub_0_r.
Qed.

(** A stream that starts with a frame without a smile is treated the same
    whatever the counter was. *)
Lemma feed_smile_after_gap frames s s' :
  head (map smile_present frames) = Some false ∨ smile_frames s = smile_frames s' →
  (feed detect_smile frames s).1 = (feed detect_smile frames s').1.
Proof.
  revert s s'. induction frames as [|x rest IH]; intros s s' H; [done|].
  rewrite !feed_cons, !detect_smile_step. cbn [fst].
  destruct (smile_present x) eqn:Hx; cbn [fst snd].
  - destruct H as [H|H]; [simpl in H; congruence|]. rewrite H.
    f_equal. apply IH. by right.
  - f_equal. apply IH. by right.
Qed.

(** C2.  Fed one smile-cascade result per frame from a state with
    [smile_frames = 0], [detect_smile] returns [True] on a frame exactly
    when the run of smile frames ending there has length 3; hence along a
    maximal run of smile frames (bounded on each side by a frame without a
    smile or by the end of the stream) it returns [True] once, on the third
    frame, if the run has at least three frames, and never otherwise, and
    the frames around the run are treated as if the run were not there. *)
Theorem smile_onset_once_per_run (pre held post : list (list Box)) (s : Self) :
  smile_frames s = 0 →
  (pre = [] ∨ last (map smile_present pre) = Some false) →
  Forall (λ x, smile_present x = true) held →
  (post = [] ∨ head (map smile_present post) = Some false) →
  (∀ frames i, i < length frames →
     smile_events frames s !! i
     = Some (run_length (take (S i) (map smile_present frames)) =? 3)) ∧
  smile_events (pre ++ held ++ post) s
  = smile_events pre s ++ onset_pattern (length held) ++ smile_events post s.
Proof.
  intros Hs Hpre Hheld Hpost. split.
  { intros frames i Hi. unfold smile_events, run_length.
    rewrite smile_events_lookup by done. by rewrite Hs. }
  unfold smile_events. rewrite !feed_app. cbn [fst snd].
  set (s1 := (feed detect_smile pre s).2).
  assert (smile_frames s1 = 0) as Hs1.
  { subst s1. rewrite smile_frames_feed, Hs.
    destruct Hpre as [->|Hlast]; [done|].
    apply last_Some in Hlast as [bs Hbs]. rewrite Hbs.
    apply run_length_from_snoc_false. }
  rewrite (feed_smile_run held s1) by done.
  do 2 f_equal.
  destruct Hpost as [->|Hpost]; [done|].
  apply feed_smile_after_gap. by left.
Qed.

(** The scenario of the specification, between two frames without a smile
    and followed by a short run: [T,T,T,T,F] gives one onset, at the third
    frame of the run. *)
Lemma smile_onset_once_per_run_witness :
  smile_events (map boxes [0; 1; 1; 1; 1; 0; 2; 2]) (init default_expressions)
  = [false] ++ [false; false; true; false] ++ [false; false; false].
Proof.
  apply (proj2 (smile_onset_once_per_run (map boxes [0]) (map boxes [1; 1; 1; 1])
                  (map boxes [0; 2; 2]) (init default_expressions)
                  eq_refl (or_intror eq_refl)
                  ltac:(repeat constructor) (or_intror eq_refl))).
Defined.

(** ** Trigger dispatcher *)

Lemma Qltb_true x y : Qltb x y = true ↔ (x < y)%Q.
Proof.
  unfold Qltb. destruct (Qlt_le_dec x y) as [H|H]; split; try done.
  intros Hlt. exfalso. by apply (Qle_not_lt _ _ H).
Qed.

Lemma Qltb_false x y : Qltb x y = false ↔ (y <= x)%Q.
Proof.
  unfold Qltb. destruct (Qlt_le_dec x y) as [H|H]; split; try done.
  intros Hle. exfalso. by apply (Qle_not_lt _ _ Hle).
Qed.

Lemma Qgeb_true x y : Qgeb x y = true ↔ (y <= x)%Q.
Proof. unfold Qgeb. rewrite negb_true_iff. apply Qltb_false. Qed.


Ltac unfold_monad :=
  cbv [mbind M_bind mret M_ret raise try_except get_self get_world
       modify_self modify_world print thread_start send_signal terminate
       report_sample report_edge fst snd].

(** A call inside the cooldown window does nothing at all. *)
Lemma trigger_action_suppressed e now last σ :
  last_trigger_time σ.1 !! e = Some last →
  (now - last < trigger_cooldown σ.1)%Q →
  trigger_action e now σ = (Ret tt, σ).
Proof.
  intros Hlast Hlt. unfold trigger_action. unfold_monad.
  destruct σ as [s w]. simpl in *. rewrite Hlast.
  apply Qltb_true in Hlt. by rewrite Hlt.
Qed.

Lemma trigger_action_fires e now last σ :
  last_trigger_time σ.1 !! e = Some last →
  (trigger_cooldown σ.1 <= now - last)%Q →
  (trigger_action e now σ).2.1 = record_trigger e now σ.1 ∧
  ∀ c, config_expressions σ.1 !! e = Some c → action c = "play_youtube" →
       trigger_action e now σ
       = (Ret tt,
          (record_trigger e now σ.1,
           set_log (ThreadStart "play_youtube" (media_path c)
                    :: Print ("Triggered: " +:+ e +:+ " -> " +:+ description c)
                    :: log σ.2) σ.2)).
Proof.
  intros Hlast Hge. unfold trigger_action. unfold_monad.
  destruct σ as [s w]. simpl in *. rewrite Hlast.
  apply Qltb_false in Hge. rewrite Hge. split.
  - destruct (config_expressions s !! e) as [c|]; [|done].
    destruct (String.eqb (action c) "play_youtube"); [done|].
    by destruct (String.eqb (action c) "play_local").
  - intros c -> Hc. rewrite Hc. done.
Qed.

(** C3.  Two dispatches for the same expression [e], present in the cooldown
    table, at times [t] and [t + Δ] with [Δ > 0], the first of which fires:
    the second leaves the whole state untouched (table, log of invoked
    actions) iff [Δ] is less than the cooldown window, and it records
    [t + Δ] in the table iff [Δ] is at least the window, in which case a
    configured link action is started. *)
Theorem trigger_action_cooldown (e : string) (t0 t Δ : Q) (σ : St) :
  last_trigger_time σ.1 !! e = Some t0 →
  (trigger_cooldown σ.1 <= t - t0)%Q →
  (0 < Δ)%Q →
  let σ1 := (trigger_action e t σ).2 in
  let r2 := trigger_action e (t + Δ) σ1 in
  last_trigger_time σ1.1 !! e = Some t ∧
  (r2 = (Ret tt, σ1) ↔ (Δ < trigger_cooldown σ.1)%Q) ∧
  (last_trigger_time r2.2.1 !! e = Some (t + Δ)%Q
   ↔ (trigger_cooldown σ.1 <= Δ)%Q) ∧
  ((trigger_cooldown σ.1 <= Δ)%Q →
   ∀ c, config_expressions σ.1 !! e = Some c → action c = "play_youtube" →
        log r2.2.2
        = ThreadStart "play_youtube" (media_path c)
          :: Print ("Triggered: " +:+ e +:+ " -> " +:+ description c)
          :: log σ1.2).
Proof.
  intros Hlast Hfirst HΔ σ1 r2.
  destruct (trigger_action_fires e t t0 σ Hlast Hfirst) as [Hσ1 _].
  fold σ1 in Hσ1.
  assert (last_trigger_time σ1.1 !! e = Some t) as Ht.
  { rewrite Hσ1. simpl. apply lookup_insert_eq. }
  assert (trigger_cooldown σ1.1 = trigger_cooldown σ.1) as Hcd by (by rewrite Hσ1).
  assert (config_expressions σ1.1 = config_expressions σ.1) as Hcfg by (by rewrite Hσ1).
  assert (¬ (t + Δ)%Q = t) as Hne.
  { intros Heq. assert (t + Δ == t)%Q as H by (by rewrite Heq). lra. }
  split; [done|].
  destruct (Qlt_le_dec Δ (trigger_cooldown σ.1)) as [Hlt|Hge].
  - assert (r2 = (Ret tt, σ1)) as Hr2.
    { apply (trigger_action_suppressed e (t + Δ) t); [done|]. rewrite Hcd. lra. }
    split; [done|]. split; [|intros; lra].
    split; [|intros; lra].
    rewrite Hr2. simpl. rewrite Ht. intros [= H]. by destruct Hne.
  - destruct (trigger_action_fires e (t + Δ) t σ1 Ht) as [Hσ2 Hact];
      [rewrite Hcd; lra|].
    fold r2 in Hσ2, Hact.
    assert (last_trigger_time r2.2.1 !! e = Some (t + Δ)%Q) as Ht2.
    { rewrite Hσ2. simpl. apply lookup_insert_eq. }
    split; [|split; [done|]].
    + split; [|intros; lra]. intros Hr2. rewrite Hr2 in Ht2. simpl in Ht2.
      rewrite Ht in Ht2. injection Ht2 as H. by destruct Hne.
    + intros _ c Hc Ha. rewrite <- Hcfg in Hc. by rewrite (Hact c Hc Ha).
Qed.

(** The scenario of the specification, window 3.0: after a wink dispatched
    at time 10, one at 12.9 ([Δ = 2.9]) is suppressed. *)
Lemma trigger_action_cooldown_witness :
  let σ := (init default_expressions,
            fresh_world (λ _, true) (λ _, Returns) (λ _, Returns) 10) in
  let σ1 := (trigger_action "smile" 10 σ).2 in
  trigger_action "smile" (10 + (29 # 10)) σ1 = (Ret tt, σ1).
Proof.
  intros σ σ1.
  apply (proj1 (proj2 (trigger_action_cooldown "smile" 0 10 (29 # 10) σ
                         eq_refl ltac:(vm_compute; discriminate) eq_refl))).
  reflexivity.
Defined.

(** ** Playback controller *)

Lemma playback_inv_intro σ :
  (is_paused σ.1 = true → audio_process σ.1 ≠ None) →
  children σ.2 = owned σ.1 →
  playback_inv σ.
Proof.
  intros Hp Hc. unfold playback_inv, playback_state, owned in *.
  destruct σ as [s w]. simpl in *.
  destruct (is_paused s), (audio_process s); rewrite Hc; simpl;
    intuition (done || lia || auto).
Qed.

Lemma same_outside_trans σ1 σ2 σ3 :
  same_outside σ1 σ2 → same_outside σ2 σ3 → same_outside σ1 σ3.
Proof. unfold same_outside. intros H1 H2. intuition congruence. Qed.

Lemma play_music_unfold h :
  play_music h =
  (s ← get_self;
   if negb (truthy (music_file s)) then mret tt
   else
     match audio_process s with
     | None =>
         try_except
           (p ← Popen ["mpg123"; "--loop"; "-1"; default "" (music_file s)];
            modify_self (set_audio_process (Some p));;
            modify_self (set_is_paused false);;
            print "Music playing")
           FileNotFoundError
           (print "mpg123 not found. Installing...";;
            try_except
              (subprocess_run ["sudo"; "apt"; "install"; "-y"; "mpg123"];;
               match h with
               | 0 => raise RecursionError
               | S h => play_music h
               end)
              CalledProcessError
              (print "Failed to install mpg123"))
     | Some p =>
         if is_paused s then
           send_signal p 18;;
           modify_self (set_is_paused false);;
           print "Music resumed"
         else mret tt
     end).
Proof. by destruct h. Qed.

Ltac unfold_calls :=
  unfold Popen, subprocess_run, os_path_exists; unfold_monad;
  cbn [fst snd popen_calls run_calls popen_outcome run_outcome log children
       path_exists recursion_headroom sample_times edges
       set_log set_popen_calls set_run_calls set_children].

Lemma play_music_no_media h σ :
  truthy (music_file σ.1) = false → play_music h σ = (Ret tt, σ).
Proof.
  destruct σ as [s w]. simpl. intros H.
  rewrite play_music_unfold. unfold_calls. by rewrite H.
Qed.

Lemma play_music_playing h σ p :
  truthy (music_file σ.1) = true → audio_process σ.1 = Some p →
  is_paused σ.1 = false → play_music h σ = (Ret tt, σ).
Proof.
  destruct σ as [s w]. simpl. intros H Hp Hq.
  rewrite play_music_unfold. unfold_calls. rewrite H. simpl. by rewrite Hp, Hq.
Qed.

Lemma play_music_resume h σ p :
  truthy (music_file σ.1) = true → audio_process σ.1 = Some p →
  is_paused σ.1 = true →
  play_music h σ
  = (Ret tt, (set_is_paused false σ.1,
              set_log (Print "Music resumed" :: SendSignal p 18 :: log σ.2) σ.2)).
Proof.
  destruct σ as [s w]. simpl. intros H Hp Hq.
  rewrite play_music_unfold. unfold_calls. rewrite H. simpl. by rewrite Hp, Hq.
Qed.

Lemma play_music_spawn h σ :
  truthy (music_file σ.1) = true → audio_process σ.1 = None →
  popen_outcome σ.2 (popen_calls σ.2) = Returns →
  play_music h σ
  = (Ret tt,
     (set_is_paused false (set_audio_process (Some (popen_calls σ.2)) σ.1),
      set_log (Print "Music playing" :: PopenCall (mpg123_args σ.1) :: log σ.2)
        (set_children (popen_calls σ.2 :: children σ.2)
           (set_popen_calls (S (popen_calls σ.2)) σ.2)))).
Proof.
  destruct σ as [s w]. simpl. intros H Hp Ho.
  rewrite play_music_unfold. unfold_calls. rewrite H. simpl. rewrite Hp.
  unfold_calls. by rewrite Ho.
Qed.

Lemma play_music_spawn_error h σ e :
  truthy (music_file σ.1) = true → audio_process σ.1 = None →
  popen_outcome σ.2 (popen_calls σ.2) = Raises e → e ≠ FileNotFoundError →
  play_music h σ = (Raise e, (σ.1, after_popen_call (mpg123_args σ.1) σ.2)).
Proof.
  destruct σ as [s w]. simpl. intros H Hp Ho He.
  rewrite play_music_unfold. unfold_calls. rewrite H. simpl. rewrite Hp.
  unfold_calls. rewrite Ho.
  by destruct (decide (e = FileNotFoundError)).
Qed.

Lemma play_music_install_fails h σ :
  truthy (music_file σ.1) = true → audio_process σ.1 = None →
  popen_outcome σ.2 (popen_calls σ.2) = Raises FileNotFoundError →
  run_outcome σ.2 (run_calls σ.2) = Raises CalledProcessError →
  play_music h σ
  = (Ret tt,
     (σ.1, set_log (Print "Failed to install mpg123" :: RunCall install_args
                    :: log (before_install σ).2)
             (set_run_calls (S (run_calls σ.2)) (before_install σ).2))).
Proof.
  destruct σ as [s w]. simpl. intros H Hp Ho Hr.
  rewrite play_music_unfold. unfold_calls. rewrite H. simpl. rewrite Hp.
  unfold_calls. rewrite Ho. simpl. unfold_calls. by rewrite Hr.
Qed.

Lemma play_music_install_error h σ e :
  truthy (music_file σ.1) = true → audio_process σ.1 = None →
  popen_outcome σ.2 (popen_calls σ.2) = Raises FileNotFoundError →
  run_outcome σ.2 (run_calls σ.2) = Raises e → e ≠ CalledProcessError →
  play_music h σ
  = (Raise e, (σ.1, after_run_call install_args (before_install σ).2)).
Proof.
  destruct σ as [s w]. simpl. intros H Hp Ho Hr He.
  rewrite play_music_unfold. unfold_calls. rewrite H. simpl. rewrite Hp.
  unfold_calls. rewrite Ho. simpl. unfold_calls. rewrite Hr.
  by destruct (decide (e = CalledProcessError)).
Qed.

(** After a successful installation the method is entered again, inside the
    inner [try]. *)
Lemma play_music_retry h σ :
  truthy (music_file σ.1) = true → audio_process σ.1 = None →
  popen_outcome σ.2 (popen_calls σ.2) = Raises FileNotFoundError →
  run_outcome σ.2 (run_calls σ.2) = Returns →
  play_music h σ
  = try_except
      (match h with 0 => raise RecursionError | S h => play_music h end)
      CalledProcessError
      (print "Failed to install mpg123")
      (σ.1, after_run_call install_args (before_install σ).2).
Proof.
  destruct σ as [s w]. simpl. intros H Hp Ho Hr.
  destruct h as [|h];
    [rewrite play_music_unfold | rewrite (play_music_unfold (S h))];
    unfold_calls; rewrite H; simpl; rewrite Hp;
    unfold_calls; rewrite Ho; simpl; unfold_calls; by rewrite Hr.
Qed.

Lemma only_logged_step σ σ' : only_logged σ σ' → controller_step σ σ'.
Proof. intros (H1 & H2 & H3). split; [by apply effect_none | done]. Qed.

Lemma controller_step_pre σ0 σ σ' :
  only_logged σ0 σ → controller_step σ σ' → controller_step σ0 σ'.
Proof.
  intros (H1 & H2 & H3) [He Hs]. split; [|by eapply same_outside_trans].
  destruct He as [Ha Hb|p Ha Hb Hc Hd|p Ha Hb Hc Hd He|p Ha Hb Hc Hd|p Ha Hb Hc
                 |path Ha Hb Hc]; rewrite ?H1, ?H2 in *.
  - by apply effect_none.
  - by apply (effect_spawn _ _ p).
  - by apply (effect_resume _ _ p).
  - by apply (effect_suspend _ _ p).
  - by apply (effect_terminate _ _ p).
  - by apply (effect_load _ _ path).
Qed.

Lemma controller_step_post σ σ' σ'' :
  controller_step σ σ' → only_logged σ' σ'' → controller_step σ σ''.
Proof.
  intros [He Hs] (H1 & H2 & H3). split; [|by eapply same_outside_trans].
  destruct He as [Ha Hb|p Ha Hb Hc Hd|p Ha Hb Hc Hd He|p Ha Hb Hc Hd|p Ha Hb Hc
                 |path Ha Hb Hc]; rewrite <- ?H1, <- ?H2 in *.
  - by apply effect_none.
  - by apply (effect_spawn _ _ p).
  - by apply (effect_resume _ _ p).
  - by apply (effect_suspend _ _ p).
  - by apply (effect_terminate _ _ p).
  - by apply (effect_load _ _ path).
Qed.

(** [play_music] does nothing, spawns into an empty handle, or resumes. *)
Lemma play_music_step h σ : controller_step σ (play_music h σ).2.
Proof.
  revert σ. induction h as [|h IH]; intros σ.
  all: destruct (truthy (music_file σ.1)) eqn:Hm;
    [|rewrite play_music_no_media by done; apply only_logged_step;
      by repeat split].
  all: destruct (audio_process σ.1) as [p|] eqn:Hp;
    [destruct (is_paused σ.1) eqn:Hq;
     [rewrite (play_music_resume _ _ p) by done; split;
      [by apply (effect_resume _ _ p) | by repeat split]
     |rewrite (play_music_playing _ _ p) by done; apply only_logged_step;
      by repeat split]|].
  all: destruct (popen_outcome σ.2 (popen_calls σ.2)) as [|e] eqn:Ho;
    [rewrite play_music_spawn by done; split;
     [by apply (effect_spawn _ _ (popen_calls σ.2)) | by repeat split]|].
  all: destruct (decide (e = FileNotFoundError)) as [->|He];
    [|rewrite (play_music_spawn_error _ _ e) by done; apply only_logged_step;
      by repeat split].
  all: destruct (run_outcome σ.2 (run_calls σ.2)) as [|e] eqn:Hr;
    [|destruct (decide (e = CalledProcessError)) as [->|He];
      [rewrite play_music_install_fails by done
      |rewrite (play_music_install_error _ _ e) by done];
      apply only_logged_step; by repeat split].
  all: rewrite play_music_retry by done; unfold try_except.
  - unfold raise. destruct (decide _); [done|].
    apply only_logged_step. by repeat split.
  - set (σ2 := (σ.1, after_run_call install_args (before_install σ).2)).
    specialize (IH σ2).
    assert (only_logged σ σ2) as H2 by (by repeat split).
    destruct (play_music h σ2) as [[[]|e] σ3]; simpl in IH.
    + by apply (controller_step_pre _ σ2).
    + destruct (decide (e = CalledProcessError)).
      * apply (controller_step_pre _ σ2); [done|].
        apply (controller_step_post _ σ3); [done|].
        unfold print, modify_world. simpl. by repeat split.
      * by apply (controller_step_pre _ σ2).
Qed.

Lemma pause_music_eq σ :
  pause_music σ =
  match audio_process σ.1 with
  | Some p =>
      if is_paused σ.1 then (Ret tt, σ)
      else (Ret tt, (set_is_paused true σ.1,
                     set_log (Print "Music paused" :: SendSignal p 19 :: log σ.2) σ.2))
  | None => (Ret tt, σ)
  end.
Proof.
  destruct σ as [s w]. unfold pause_music. unfold_monad. simpl.
  destruct (audio_process s); [|done]. by destruct (is_paused s).
Qed.

Lemma stop_music_eq σ :
  stop_music σ =
  match audio_process σ.1 with
  | Some p =>
      (Ret tt, (set_is_paused false (set_audio_process None σ.1),
                set_log (Print "Music stopped" :: Terminate p :: log σ.2)
                  (set_children (filter (λ q, q ≠ p) (children σ.2)) σ.2)))
  | None => (Ret tt, σ)
  end.
Proof.
  destruct σ as [s w]. unfold stop_music. unfold_monad. simpl.
  by destruct (audio_process s).
Qed.

Lemma load_music_eq path σ :
  load_music path σ =
  if file_exists σ.2 path then
    (Ret true, (set_music_file (Some path) σ.1,
                set_log (Print ("Music loaded: " +:+ path) :: log σ.2) σ.2))
  else
    (Ret false, (σ.1, set_log (Print ("Audio file not found: " +:+ path) :: log σ.2) σ.2)).
Proof.
  destruct σ as [s w]. unfold load_music. unfold_calls.
  by destruct (file_exists w path).
Qed.

Lemma pause_music_step σ : controller_step σ (pause_music σ).2.
Proof.
  rewrite pause_music_eq. destruct (audio_process σ.1) as [p|] eqn:Hp.
  - destruct (is_paused σ.1) eqn:Hq.
    + apply only_logged_step. by repeat split.
    + split; [by apply (effect_suspend _ _ p) | by repeat split].
  - apply only_logged_step. by repeat split.
Qed.

Lemma stop_music_step σ : controller_step σ (stop_music σ).2.
Proof.
  rewrite stop_music_eq. destruct (audio_process σ.1) as [p|] eqn:Hp.
  - split; [by apply (effect_terminate _ _ p) | by repeat split].
  - apply only_logged_step. by repeat split.
Qed.

Lemma load_music_step path σ : controller_step σ (load_music path σ).2.
Proof.
  rewrite load_music_eq. destruct (file_exists σ.2 path) eqn:E.
  - unfold file_exists in E. destruct (decide (path = "")); [done|].
    split; [by apply (effect_load _ _ path) | by repeat split].
  - apply only_logged_step. by repeat split.
Qed.

Lemma playback_effect_inv σ σ' :
  playback_effect σ σ' → playback_inv σ → playback_inv σ'.
Proof.
  intros He (_ & Hp & Hc & _).
  destruct σ as [s w], σ' as [s' w']. unfold owned in Hc.
  destruct He as [Ha Hb|p Ha Hb Hc' Hd|p Ha Hb Hm Hc' Hd|p Ha Hb Hc' Hd|p Ha Hb Hc'
                 |path Ha Hb Hc'];
    simpl in *; subst s'; apply playback_inv_intro; unfold owned; simpl.
  all: try done.
  - by rewrite Hb.
  - by rewrite Hd, Hc, Ha.
  - by rewrite Hd.
  - intros _. by rewrite Ha.
  - by rewrite Hd.
  - rewrite Hc', Hc, Ha. simpl. by rewrite filter_cons_False by (by intros ?).
  - by rewrite Hc'.
Qed.

(** C5.  The invariant holds in a fresh instance and every call of
    [play_music], [pause_music], [stop_music] and [load_music] preserves
    it: the handle is non-null iff the state is [Playing] or [Paused]
    ([is_paused] implies a handle), and the processes spawned on which
    [terminate()] has not been called are exactly the one of the handle, so
    at most one. *)
Theorem playback_invariant_preserved :
  (∀ cfg ex po ru h, playback_inv (init cfg, fresh_world ex po ru h)) ∧
  (∀ σ, playback_inv σ →
     (∀ h, playback_inv (play_music h σ).2) ∧
     playback_inv (pause_music σ).2 ∧
     playback_inv (stop_music σ).2 ∧
     (∀ path, playback_inv (load_music path σ).2)).
Proof.
  split.
  - intros. by apply playback_inv_intro.
  - intros σ Hinv.
    split; [intros h | split; [| split; [| intros path]]];
      (eapply playback_effect_inv; [|exact Hinv]).
    + apply play_music_step.
    + apply pause_music_step.
    + apply stop_music_step.
    + apply load_music_step.
Qed.

Lemma playback_invariant_preserved_witness :
  playback_inv (play_music 10 (loaded_state kind_world)).2.
Proof.
  apply (proj2 playback_invariant_preserved (loaded_state kind_world)).
  apply (proj2 playback_invariant_preserved (init default_expressions, kind_world)).
  apply (proj1 playback_invariant_preserved).
Defined.

(** *** Loading *)

(** C7, as stated, fails: [load_music] has no guard for media already
    loaded.  After ["a.mp3"] has been loaded, loading ["b.mp3"] replaces the
    recorded path. *)
Lemma load_music_second_call_overwrites :
  let σ1 := (load_music "a.mp3" (init default_expressions, kind_world)).2 in
  music_file σ1.1 = Some "a.mp3" ∧
  music_file (load_music "b.mp3" σ1).2.1 = Some "b.mp3" ∧
  music_file (load_music "b.mp3" σ1).2.1 ≠ music_file σ1.1.
Proof. split; [reflexivity | split; [reflexivity | discriminate]]. Qed.

(** C7, amended.  [load_music path] returns whether the path exists, never
    raises, records the path iff it exists, and otherwise leaves [self] (so
    the loaded media path) unchanged; it does so in every state, whether or
    not media was loaded before. *)
Theorem load_music_records_existing_path (path : string) (σ : St) :
  load_music path σ
  = (Ret (file_exists σ.2 path),
     (if file_exists σ.2 path then set_music_file (Some path) σ.1 else σ.1,
      set_log (Print ((if file_exists σ.2 path
                       then "Music loaded: " else "Audio file not found: ")
                      +:+ path) :: log σ.2) σ.2)).
Proof. rewrite load_music_eq. by destruct (file_exists σ.2 path). Qed.

(** *** Missing player binary *)



(** The re-entry is not bounded by the code: while installations succeed
    and the binary stays missing, each level of the recursion makes one more
    spawn attempt and one more installation, until the interpreter gives
    up. *)
Lemma play_music_recursion h σ :
  truthy (music_file σ.1) = true → audio_process σ.1 = None →
  (∀ n, popen_outcome σ.2 n = Raises FileNotFoundError) →
  (∀ n, run_outcome σ.2 n = Returns) →
  (play_music h σ).1 = Raise RecursionError ∧
  popen_calls (play_music h σ).2.2 = popen_calls σ.2 + S h ∧
  run_calls (play_music h σ).2.2 = run_calls σ.2 + S h.
Proof.
  revert σ. induction h as [|h IH]; intros σ Hm Hp Ho Hr;
    rewrite play_music_retry by done; unfold try_except.
  - unfold raise. destruct (decide _); [done|]. simpl. repeat split; lia.
  - set (σ2 := (σ.1, after_run_call install_args (before_install σ).2)).
    destruct (IH σ2) as (H1 & H2 & H3); [done..|].
    destruct (play_music h σ2) as [[[]|e] σ3]; simpl in H1; [done|].
    injection H1 as ->. destruct (decide _); [done|].
    simpl in *. repeat split; lia.
Qed.



(** ** Main loop *)

Global Instance keeps_preorder P : PreOrder (keeps P).
Proof. split; unfold keeps; [intros σ H | intros σ1 σ2 σ3 H1 H2 H]; auto. Qed.

Section Stable.
Context (R : St → St → Prop) `{!PreOrder R}.

Lemma stable_ret {A} (a : A) : stable R (mret a).
Proof. intros σ. simpl. reflexivity. Qed.

Lemma stable_bind {A B} (m : M A) (f : A → M B) :
  stable R m → (∀ a, stable R (f a)) → stable R (m ≫= f).
Proof.
  intros Hm Hf σ. unfold mbind, M_bind. specialize (Hm σ).
  destruct (m σ) as [[a|e] σ1]; simpl in *; [|done].
  by etrans; [|apply Hf].
Qed.

Lemma stable_for_each {A} (xs : list A) (body : A → M unit) :
  (∀ x, stable R (body x)) → stable R (for_each xs body).
Proof.
  intros Hb. induction xs as [|x xs IH]; simpl.
  - apply stable_ret.
  - apply stable_bind; [apply Hb | intros _; apply IH].
Qed.

Lemma stable_loop_iteration fr :
  (∀ f, stable R (process_face f)) → stable R (loop_iteration fr).
Proof.
  intros Hf. unfold loop_iteration. destruct (negb (ret fr)).
  - apply stable_ret.
  - apply stable_bind; [by apply stable_for_each|].
    intros _. destruct (_ =? _)%Z; apply stable_ret.
Qed.

Lemma stable_main_loop frames :
  (∀ f, stable R (process_face f)) → stable R (main_loop frames).
Proof.
  intros Hf. induction frames as [|fr rest IH]; simpl.
  - apply stable_ret.
  - apply stable_bind; [by apply stable_loop_iteration|].
    intros []; [apply IH | apply stable_ret].
Qed.
End Stable.

Lemma process_face_eq f σ :
  process_face f σ =
  if Qgeb (clock f - last_smile_check σ.1) (smile_check_interval σ.1) then
    if detect_smile_state (smiles f) && negb (is_smiling σ.1) then
      play_music (recursion_headroom σ.2)
        (edge_at (clock f) Rising (sampled_at (clock f) σ))
    else if negb (detect_smile_state (smiles f)) && is_smiling σ.1 then
      pause_music (edge_at (clock f) Falling (sampled_at (clock f) σ))
    else (Ret tt, sampled_at (clock f) σ)
  else (Ret tt, σ).
Proof.
  destruct σ as [s w]. unfold process_face. unfold_monad.
  cbn [fst snd]. destruct (Qgeb _ _); [|done].
  by destruct (detect_smile_state (smiles f)), (is_smiling s).
Qed.


Lemma loop_iteration_eq fr σ :
  loop_iteration fr σ =
  if negb (ret fr) then (Ret Break, σ)
  else match for_each (faces fr) process_face σ with
       | (Ret _, σ1) =>
           (Ret (if (Z.land (key fr) 255 =? 113)%Z then Break else Continue), σ1)
       | (Raise e, σ1) => (Raise e, σ1)
       end.
Proof.
  unfold loop_iteration. destruct (negb (ret fr)); [done|].
  unfold mbind, M_bind. destruct (for_each _ _ σ) as [[[]|e] σ1]; [|done].
  by destruct (_ =? _)%Z.
Qed.

(** C10.  An iteration of the main loop on a frame without faces leaves the
    whole state as it is: [is_smiling], [last_smile_check], the handle,
    [is_paused], and the world (no signal, no spawn, no termination); it
    only decides whether the loop goes on. *)
Theorem loop_iteration_no_face (fr : Frame) (σ : St) :
  faces fr = [] →
  loop_iteration fr σ
  = (Ret (if negb (ret fr) then Break
          else if (Z.land (key fr) 255 =? 113)%Z then Break else Continue),
     σ).
Proof.
  intros Hf. rewrite loop_iteration_eq, Hf. by destruct (negb (ret fr)).
Qed.

(** A playing controller keeps playing over a frame without faces. *)
Lemma loop_iteration_no_face_witness :
  let σ := (play_music 10 (loaded_state kind_world)).2 in
  playback_state σ.1 = Playing ∧
  loop_iteration (mkFrame true [] 0) σ = (Ret Continue, σ).
Proof.
  intros σ. split; [reflexivity|].
  apply (loop_iteration_no_face (mkFrame true [] 0) σ eq_refl).
Defined.

(** As long as no face is seen the loop changes nothing. *)
Lemma main_loop_no_faces frames σ :
  Forall (λ fr, faces fr = []) frames → (main_loop frames σ).2 = σ.
Proof.
  intros HF. induction HF as [|fr rest Hfr _ IH]; [done|].
  simpl. unfold mbind, M_bind. rewrite loop_iteration_eq, Hfr.
  destruct (negb (ret fr)); [done|]. by destruct (_ =? _)%Z.
Qed.

(** *** Several faces in a frame *)


(** After a face has been processed the sampler's clock is where it was or
    at the reading taken for the face. *)
Lemma process_face_clock f σ :
  smile_check_interval (process_face f σ).2.1 = smile_check_interval σ.1 ∧
  (last_smile_check (process_face f σ).2.1 = last_smile_check σ.1 ∨
   last_smile_check (process_face f σ).2.1 = clock f).
Proof.
  rewrite process_face_eq. destruct (Qgeb _ _); [|by split; [|left]].
  destruct (_ && _).
  { destruct (play_music_step (recursion_headroom σ.2)
                (edge_at (clock f) Rising (sampled_at (clock f) σ)))
      as [_ (_ & _ & _ & _ & _ & _ & _ & Hl & Hi)].
    rewrite Hl, Hi. split; [done | by right]. }
  destruct (_ && _).
  { destruct (pause_music_step
                (edge_at (clock f) Falling (sampled_at (clock f) σ)))
      as [_ (_ & _ & _ & _ & _ & _ & _ & Hl & Hi)].
    rewrite Hl, Hi. split; [done | by right]. }
  split; [done | by right].
Qed.





(** *** Reachable states of the controller *)

Lemma playback_effect_media σ σ' :
  playback_effect σ σ' → media_inv σ → media_inv σ'.
Proof.
  unfold media_inv. destruct σ as [s w], σ' as [s' w'].
  intros [Ha Hb|p Ha Hb Hc Hd|p Ha Hb Hm Hc Hd|p Ha Hb Hc Hd|p Ha Hb Hc
         |path Ha Hb Hc] Hinv; simpl in *; subst s'; simpl; try done.
  intros _. apply negb_true_iff. by apply String.eqb_neq.
Qed.

Lemma process_face_media f : stable (keeps media_inv) (process_face f).
Proof.
  intros σ. rewrite process_face_eq. destruct (Qgeb _ _); [|done].
  destruct (_ && _).
  { intros H. eapply playback_effect_media; [apply play_music_step|]. exact H. }
  destruct (_ && _).
  { intros H. eapply playback_effect_media; [apply pause_music_step|]. exact H. }
  intros H. exact H.
Qed.

Lemma controller_reachable_media σ : controller_reachable σ → media_inv σ.
Proof.
  induction 1 as [| path σ _ IH | h σ _ IH | σ _ IH | σ _ IH | fr σ _ IH].
  - by intros ?.
  - eapply playback_effect_media; [apply load_music_step | done].
  - eapply playback_effect_media; [apply play_music_step | done].
  - eapply playback_effect_media; [apply pause_music_step | done].
  - eapply playback_effect_media; [apply stop_music_step | done].
  - by apply (stable_loop_iteration (keeps media_inv) fr process_face_media σ).
Qed.

(** C4.  [play_music] in the state [Paused] (handle present, [is_paused]
    true), reached from a fresh instance: the continue signal (18) goes to
    the process of the handle, [is_paused] becomes false, the handle is the
    same object as before, and no [Popen] call is made, so no process is
    spawned. *)
Theorem play_music_resumes_same_process (h : nat) (p : Proc) (σ : St) :
  controller_reachable σ →
  audio_process σ.1 = Some p → is_paused σ.1 = true →
  play_music h σ
  = (Ret tt, (set_is_paused false σ.1,
              set_log (Print "Music resumed" :: SendSignal p 18 :: log σ.2) σ.2)) ∧
  playback_state σ.1 = Paused ∧
  playback_state (play_music h σ).2.1 = Playing ∧
  audio_process (play_music h σ).2.1 = Some p ∧
  popen_calls (play_music h σ).2.2 = popen_calls σ.2 ∧
  children (play_music h σ).2.2 = children σ.2.
Proof.
  intros Hreach Hp Hq.
  assert (truthy (music_file σ.1) = true) as Hm.
  { apply (controller_reachable_media σ Hreach). by rewrite Hp. }
  rewrite (play_music_resume h σ p) by done.
  unfold playback_state. simpl. by rewrite Hp, Hq.
Qed.

(** Music loaded, started and paused; then resumed. *)
Lemma play_music_resumes_same_process_witness :
  let σ := (pause_music (play_music 10 (loaded_state kind_world)).2).2 in
  audio_process σ.1 = Some 0 ∧
  audio_process (play_music 10 σ).2.1 = Some 0 ∧
  popen_calls (play_music 10 σ).2.2 = popen_calls σ.2.
Proof.
  intros σ.
  destruct (play_music_resumes_same_process 10 0 σ) as (_ & _ & _ & H1 & H2 & _).
  - apply reach_pause, reach_play, reach_load, reach_init.
  - reflexivity.
  - reflexivity.
  - split; [reflexivity | split; [exact H1 | exact H2]].
Defined.

(** *** Sustained smile state *)

Lemma spaced_lookup I ts i j ti tj :
  spaced I ts → i < j → ts !! i = Some ti → ts !! j = Some tj →
  (I <= ti - tj)%Q.
Proof.
  revert i j. induction ts as [|t older IH]; intros i j Hsp Hij Hi Hj;
    [done|].
  destruct Hsp as [HF Hs]. destruct j as [|j]; [lia|]. destruct i as [|i]; simpl in Hi, Hj.
  - injection Hi as ->. by apply (Forall_lookup_1 _ _ _ _ HF Hj).
  - apply (IH i j); (done || lia).
Qed.

(** Next to a rising edge, on the older side, is a falling edge. *)
Lemma alternates_before_rising es cur i t t' e' :
  alternates es cur → es !! i = Some (t, Rising) → es !! S i = Some (t', e') →
  e' = Falling.
Proof.
  revert cur i. induction es as [|[u e] older IH]; intros cur i Ha Hi Hj; [done|].
  destruct i as [|i]; simpl in Hi, Hj.
  - injection Hi as -> ->. destruct Ha as [_ Ha].
    destruct older as [|[u' e''] older']; [done|]. injection Hj as -> ->.
    destruct e'; [by destruct Ha | done].
  - destruct e; destruct Ha as [_ Ha]; by apply (IH _ i Ha).
Qed.

Lemma alternates_between_rising es cur i j ti tj :
  alternates es cur → i < j →
  es !! i = Some (ti, Rising) → es !! j = Some (tj, Rising) →
  ∃ k tk, i < k < j ∧ es !! k = Some (tk, Falling).
Proof.
  intros Ha Hij Hi Hj.
  assert (is_Some (es !! S i)) as [[t' e'] Hk].
  { apply lookup_lt_is_Some. apply lookup_lt_Some in Hj. lia. }
  assert (e' = Falling) as ->
    by apply (alternates_before_rising es cur i ti t' e' Ha Hi Hk).
  exists (S i), t'. split; [|done].
  destruct (decide (S i = j)) as [<-|]; [congruence | lia].
Qed.

Lemma same_outside_sampler σ σ' :
  same_outside σ σ' → sampler_inv σ → sampler_inv σ'.
Proof.
  intros (_ & _ & _ & _ & Hs & He & Hi & Hl & Hint). unfold sampler_inv.
  by rewrite Hs, He, Hi, Hl, Hint.
Qed.

Lemma controller_step_sampler {A} (m : M A) :
  (∀ σ, controller_step σ (m σ).2) → stable (keeps sampler_inv) m.
Proof. intros H σ Hinv. eapply same_outside_sampler; [apply H | done]. Qed.

(** Taking a sample at [t], at least an interval after the last one. *)
Lemma sampled_at_inv t σ :
  (smile_check_interval σ.1 <= t - last_smile_check σ.1)%Q →
  sampler_inv σ → sampler_inv (sampled_at t σ).
Proof.
  destruct σ as [s w]. unfold sampler_inv, sampled_at. simpl.
  intros Hge (H0 & Hts & Hsp & Hes & Hesp & Halt).
  split; [done|]. split; [|split; [|split; [|split; [done|done]]]].
  - constructor; [lra|]. eapply Forall_impl; [exact Hts|]. simpl. intros; lra.
  - split; [|done]. eapply Forall_impl; [exact Hts|]. simpl. intros; lra.
  - eapply Forall_impl; [exact Hes|]. simpl. intros e [H1 H2].
    split; [lra | by right].
Qed.

(** Reporting an edge at the sample just taken. *)
Lemma edge_at_inv t e σ :
  sampler_inv (sampled_at t σ) →
  (smile_check_interval σ.1 <= t - last_smile_check σ.1)%Q →
  sampler_inv σ →
  is_smiling σ.1 = (if decide (e = Rising) then false else true) →
  sampler_inv (edge_at t e (sampled_at t σ)).
Proof.
  destruct σ as [s w]. unfold sampler_inv, sampled_at, edge_at. simpl.
  intros (H0 & Hts & Hsp & Hes & Hesp & _) Hge (_ & _ & _ & Hes0 & _ & Halt) Hcur.
  split; [done|]. split; [done|]. split; [done|].
  split; [|split].
  - constructor; [|done]. simpl. split; [lra | by left].
  - split; [|done]. apply Forall_fmap.
    eapply Forall_impl; [exact Hes0|]. simpl. intros e' [H1 _]. lra.
  - rewrite Hcur in Halt. by destruct e.
Qed.

Lemma process_face_sampler f : stable (keeps sampler_inv) (process_face f).
Proof.
  intros σ Hinv. rewrite process_face_eq.
  destruct (Qgeb _ _) eqn:Hge; [|done]. apply Qgeb_true in Hge.
  pose proof (sampled_at_inv (clock f) σ Hge Hinv) as Hs.
  destruct (detect_smile_state (smiles f)), (is_smiling σ.1) eqn:Hcur; simpl;
    try done.
  - eapply same_outside_sampler; [apply play_music_step|].
    by apply edge_at_inv.
  - eapply same_outside_sampler; [apply pause_music_step|].
    by apply edge_at_inv.
Qed.

Lemma print_step msg σ : controller_step σ (print msg σ).2.
Proof. apply only_logged_step. by repeat split. Qed.

Section StableRun.
Context (R : St → St → Prop) `{!PreOrder R}.
Hypothesis controller_stable :
  ∀ A (m : M A), (∀ σ, controller_step σ (m σ).2) → stable R m.
Hypothesis face_stable : ∀ f, stable R (process_face f).

Lemma stable_print msg : stable R (print msg).
Proof. apply controller_stable. intros σ. apply print_step. Qed.

Lemma stable_run frames : stable R (run frames).
Proof.
  unfold run.
  apply (stable_bind R); [apply stable_print | intros _].
  apply (stable_bind R); [intros σ; reflexivity | intros s].
  apply (stable_bind R); [|intros _].
  { destruct (truthy _); [|apply (stable_ret R)].
    apply (stable_bind R); [|intros _; apply (stable_ret R)].
    apply controller_stable. intros σ. apply load_music_step. }
  do 4 (apply (stable_bind R); [apply stable_print | intros _]).
  apply (stable_bind R); [by apply stable_main_loop | intros _].
  apply controller_stable. intros σ. apply stop_music_step.
Qed.
End StableRun.

Lemma run_sampler frames : stable (keeps sampler_inv) (run frames).
Proof.
  apply stable_run; [apply _ | | apply process_face_sampler].
  intros A m. apply controller_step_sampler.
Qed.

Lemma run_interval frames c :
  stable (keeps (λ σ : St, smile_check_interval σ.1 = c)) (run frames).
Proof.
  apply stable_run; [apply _ | |].
  - intros A m Hm σ H0. destruct (Hm σ) as [_ Hso].
    destruct Hso as (_ & _ & _ & _ & _ & _ & _ & _ & Hint). by rewrite Hint.
  - intros f σ H0. destruct (process_face_clock f σ) as [Hint _].
    by rewrite Hint.
Qed.

(** C8.  In every execution of [run], on any configuration, world and
    sequence of frames: the clock readings at which the smile state was
    sampled are at least [smile_check_interval] (1.5) apart, every edge of
    [is_smiling] (the calls of [play_music] and [pause_music] of the loop)
    is reported at such a reading, so that edges are that far apart too, and
    between two rising edges there is a falling one.  The lists are newest
    first: a smaller index is a later event. *)
Theorem sustained_edges_spaced_and_alternating cfg ex po ru h (frames : list Frame) :
  let σ := (run frames (init cfg, fresh_world ex po ru h)).2 in
  (∀ i j ti tj, i < j →
     sample_times σ.2 !! i = Some ti → sample_times σ.2 !! j = Some tj →
     (3 # 2 <= ti - tj)%Q) ∧
  (∀ k t e, edges σ.2 !! k = Some (t, e) → t ∈ sample_times σ.2) ∧
  (∀ i j ti ei tj ej, i < j →
     edges σ.2 !! i = Some (ti, ei) → edges σ.2 !! j = Some (tj, ej) →
     (3 # 2 <= ti - tj)%Q) ∧
  (∀ i j ti tj, i < j →
     edges σ.2 !! i = Some (ti, Rising) → edges σ.2 !! j = Some (tj, Rising) →
     ∃ k tk, i < k < j ∧ edges σ.2 !! k = Some (tk, Falling)).
Proof.
  intros σ.
  assert (sampler_inv σ) as (_ & _ & Hsp & Hes & Hesp & Halt).
  { apply (run_sampler frames (init cfg, fresh_world ex po ru h)).
    unfold sampler_inv. simpl. repeat split; (done || constructor). }
  assert (smile_check_interval σ.1 = (3 # 2)%Q) as HI
    by (by apply (run_interval frames (3 # 2)%Q)).
  rewrite HI in Hsp, Hesp.
  split; [|split; [|split]].
  - intros i j ti tj. by apply spaced_lookup.
  - intros k t e Hk.
    by destruct (Forall_lookup_1 _ _ _ _ Hes Hk) as [_ Hin].
  - intros i j ti ei tj ej Hij Hi Hj.
    apply (spaced_lookup _ (map fst (edges σ.2)) i j); [done..| |].
    + by rewrite list_lookup_fmap, Hi.
    + by rewrite list_lookup_fmap, Hj.
  - intros i j ti tj. by apply (alternates_between_rising _ (is_smiling σ.1)).
Qed.

(** A run on five frames: smile at 100, no smile at 101 (not sampled) and
    at 102, smile at 104, then the quit key.  Edges, newest first: rising
    at 104, falling at 102, rising at 100. *)
Lemma sustained_edges_spaced_and_alternating_witness :
  let cfg := <[ "smile" := mkExprConfig "play_local" "song3.mp3" "Smile plays" ]>
               default_expressions in
  let face t n := mkFaceObs (0, 0, 50, 50)%Z (boxes 2) t (boxes n) in
  let frames := [mkFrame true [face 100%Q 1] 0; mkFrame true [face 101%Q 0] 0;
                 mkFrame true [face 102%Q 0] 0; mkFrame true [face 104%Q 1] 0;
                 mkFrame true [] 113] in
  let σ := (run frames (init cfg, fresh_world (λ _, true) (λ _, Returns)
                                    (λ _, Returns) 10)).2 in
  edges σ.2 = [(104%Q, Rising); (102%Q, Falling); (100%Q, Rising)] ∧
  ∃ k tk, 0 < k < 2 ∧ edges σ.2 !! k = Some (tk, Falling).
Proof.
  intros cfg face frames σ. split; [reflexivity|].
  apply (proj2 (proj2 (proj2
           (sustained_edges_spaced_and_alternating cfg (λ _, true)
              (λ _, Returns) (λ _, Returns) 10 frames)))
           0 2 104%Q 100%Q); [lia | reflexivity | reflexivity].
Defined.

(** * Further properties *)

(** ** Wink detector on streams *)

Lemma wink_pending_two cs : ¬ wink_pending (cs ++ [2]).
Proof.
  intros (a & b & Heq & _ & Hb).
  destruct b as [|x b _] using rev_ind.
  - apply app_inj_tail in Heq as [_ [=]].
  - rewrite app_comm_cons, app_assoc in Heq.
    apply app_inj_tail in Heq as [_ <-]. apply Hb. rewrite elem_of_app, list_elem_of_singleton. by right.
Qed.

Lemma wink_pending_closes cs : previous_count cs = 2 → wink_pending (cs ++ [1]).
Proof. intros H. exists cs, []. split; [done|]. split; [done | apply not_elem_of_nil]. Qed.

Lemma wink_pending_other cs c :
  c ≠ 2 → ¬ (c = 1 ∧ previous_count cs = 2) →
  wink_pending (cs ++ [c]) ↔ wink_pending cs.
Proof.
  intros Hc Hno. split.
  - intros (a & b & Heq & Ha & Hb).
    destruct b as [|x b _] using rev_ind.
    + apply app_inj_tail in Heq as [-> ->]. by destruct Hno.
    + rewrite app_comm_cons, app_assoc in Heq.
      apply app_inj_tail in Heq as [-> <-].
      exists a, b. split; [done|]. split; [done|].
      intros Hin. apply Hb. rewrite elem_of_app. by left.
  - intros (a & b & -> & Ha & Hb). exists a, (b ++ [c]).
    split; [by rewrite <- app_assoc|]. split; [done|].
    rewrite elem_of_app, list_elem_of_singleton. intros [H|H]; [done | congruence].
Qed.

Lemma previous_count_snoc cs c : previous_count (cs ++ [c]) = c.
Proof. unfold previous_count. by rewrite last_snoc. Qed.

(** One step of the detector, by cases on the eye counts. *)
Lemma detect_wink_cases e s :
  wink_inv s →
  last_eye_count (detect_wink e s).2 = length e ∧
  wink_frames (detect_wink e s).2
  = (if decide (length e = 2) then 0
     else if decide (length e = 1 ∧ last_eye_count s = 2) then 1
     else wink_frames s) ∧
  (detect_wink e s).1
  = bool_decide (length e = 2 ∧ last_eye_count s = 1 ∧ wink_frames s = 1).
Proof.
  intros [Hle H2]. unfold detect_wink.
  destruct (Nat.eqb_spec (last_eye_count s) 2), (Nat.eqb_spec (length e) 1),
    (Nat.eqb_spec (last_eye_count s) 1), (Nat.eqb_spec (length e) 2),
    (Nat.ltb_spec 0 (wink_frames s)), (Nat.leb_spec 1 (wink_frames s)),
    (Nat.leb_spec (wink_frames s) 8);
    cbn [andb fst snd last_eye_count wink_frames set_last_eye_count
         set_wink_frames];
    repeat case_decide; case_bool_decide;
    repeat split; try done; try lia; exfalso; intuition lia.
Qed.

(** The state of the detector after a stream, read off the stream. *)
Lemma feed_wink_state frames cfg :
  wink_inv (feed detect_wink frames (init cfg)).2 ∧
  last_eye_count (feed detect_wink frames (init cfg)).2
  = previous_count (map length frames) ∧
  (wink_frames (feed detect_wink frames (init cfg)).2 = 1
   ↔ wink_pending (map length frames)).
Proof.
  induction frames as [|e frames IH] using rev_ind.
  - simpl. split; [split; [simpl; lia | done]|]. split; [done|].
    split; [done|]. intros (a & b & Heq & _). by destruct a.
  - destruct IH as (Hinv & Hl & Hw). rewrite feed_app. cbn [snd].
    rewrite feed_cons. cbn [snd feed]. rewrite map_app.
    change (map length [e]) with [length e]. rewrite previous_count_snoc.
    set (s := (feed detect_wink frames (init cfg)).2) in *.
    destruct (detect_wink_cases e s Hinv) as (H1 & H2 & _).
    split; [by apply detect_wink_inv|]. split; [done|]. rewrite H2.
    destruct Hinv as [Hle _].
    destruct (decide (length e = 2)) as [->|Hne].
    + split; [done | intros H; by apply wink_pending_two in H].
    + destruct (decide _) as [[-> Hp]|Hno].
      * split; [intros _; apply wink_pending_closes; congruence | done].
      * rewrite Hw. symmetry. apply wink_pending_other; [done|].
        by rewrite <- Hl.
Qed.

(** X2.  From a fresh instance, [detect_wink] returns [True] on a frame
    exactly when the frame shows two eyes, the frame before showed one, and
    a candidate wink is pending: at some earlier frame the count went from
    two to one (the count before the first frame being two) and no frame
    since showed two eyes.  The frames in between may show any count other
    than two, in any number. *)
Theorem detect_wink_fires_iff (frames : list (list Box)) (e : list Box) cfg :
  last (wink_events (frames ++ [e]) (init cfg)) = Some true ↔
  length e = 2 ∧ previous_count (map length frames) = 1 ∧
  wink_pending (map length frames).
Proof.
  unfold wink_events. rewrite feed_app. cbn [fst]. rewrite feed_cons.
  cbn [fst feed]. rewrite last_snoc.
  destruct (feed_wink_state frames cfg) as (Hinv & Hl & Hw).
  set (s := (feed detect_wink frames (init cfg)).2) in *.
  destruct (detect_wink_cases e s Hinv) as (_ & _ & ->).
  rewrite <- Hl, <- Hw. case_bool_decide; split; (done || by intros [=]).
Qed.

(** ** The detectors and the rest of [self] *)

Lemma set_smile_frames_twice a b s :
  set_smile_frames a (set_smile_frames b s) = set_smile_frames a s.
Proof. by destruct s. Qed.

Lemma set_smile_frames_same s : set_smile_frames (smile_frames s) s = s.
Proof. by destruct s. Qed.

(** X3.  Whatever the stream, [detect_smile] changes nothing in [self] but
    [smile_frames], and leaves there the length of the run of smile frames
    the stream ends with (continuing the run the counter stood for): the
    counter is never capped while a smile is held, and any frame without a
    smile puts it back to 0. *)
Theorem detect_smile_final_state (frames : list (list Box)) (s : Self) :
  (feed detect_smile frames s).2
  = set_smile_frames
      (run_length_from (smile_frames s) (map smile_present frames)) s.
Proof.
  revert s. induction frames as [|x rest IH]; intros s.
  - simpl. by rewrite set_smile_frames_same.
  - rewrite feed_cons, detect_smile_step. cbn [snd map run_length_from].
    destruct (smile_present x); cbn [snd]; rewrite IH; simpl;
      by rewrite set_smile_frames_twice, ?Nat.add_1_r.
Qed.

Lemma detect_wink_keeps_smile_frames e s :
  smile_frames (detect_wink e s).2 = smile_frames s.
Proof. unfold detect_wink. by repeat case_match. Qed.

Lemma detect_smile_keeps_wink_fields x s :
  last_eye_count (detect_smile x s).2 = last_eye_count s ∧
  wink_frames (detect_smile x s).2 = wink_frames s.
Proof. rewrite detect_smile_step. by destruct (smile_present x). Qed.

(** What [detect_wink] returns depends on [self] through the two fields of
    the wink detector only. *)
Lemma feed_wink_ext frames s s' :
  last_eye_count s = last_eye_count s' → wink_frames s = wink_frames s' →
  (feed detect_wink frames s).1 = (feed detect_wink frames s').1.
Proof.
  revert s s'. induction frames as [|e rest IH]; intros s s' Hl Hw; [done|].
  rewrite !feed_cons. cbn [fst].
  assert ((detect_wink e s).1 = (detect_wink e s').1 ∧
          last_eye_count (detect_wink e s).2 = last_eye_count (detect_wink e s').2 ∧
          wink_frames (detect_wink e s).2 = wink_frames (detect_wink e s').2)
    as (-> & H1 & H2).
  { unfold detect_wink. rewrite Hl, Hw. by repeat case_match. }
  f_equal. by apply IH.
Qed.

(** X4.  The two detectors do not interfere: the winks reported on a stream
    of eye results are the same whether or not the smile detector has been
    fed any stream before, and the onsets reported on a stream of smile
    results are the same whether or not the wink detector has been fed. *)
Theorem detectors_independent (eye_frames smile_results : list (list Box))
    (s : Self) :
  wink_events eye_frames (feed detect_smile smile_results s).2
  = wink_events eye_frames s ∧
  smile_events smile_results (feed detect_wink eye_frames s).2
  = smile_events smile_results s.
Proof.
  unfold wink_events, smile_events. split.
  - destruct (feed_inv detect_smile
                (λ s', last_eye_count s' = last_eye_count s
                       ∧ wink_frames s' = wink_frames s)) with
      (frames := smile_results) (s := s) as [Hl Hw]; [|done|by apply feed_wink_ext].
    intros x s' [H1 H2].
    destruct (detect_smile_keeps_wink_fields x s') as [-> ->]. done.
  - apply feed_smile_after_gap. right.
    apply (feed_inv detect_wink (λ s', smile_frames s' = smile_frames s));
      [|done].
    intros e s' H. by rewrite detect_wink_keeps_smile_frames.
Qed.

(** ** Dispatcher: errors, actions and sequences of dispatches *)

Lemma trigger_action_eq e now σ :
  trigger_action e now σ =
  match last_trigger_time σ.1 !! e with
  | None => (Raise KeyError, σ)
  | Some last =>
      if Qltb (now - last) (trigger_cooldown σ.1) then (Ret tt, σ)
      else
        match config_expressions σ.1 !! e with
        | None => (Ret tt, (record_trigger e now σ.1, σ.2))
        | Some c =>
            let w' := set_log (Print ("Triggered: " +:+ e +:+ " -> "
                                        +:+ description c) :: log σ.2) σ.2 in
            if String.eqb (action c) "play_youtube" then
              (Ret tt, (record_trigger e now σ.1,
                        set_log (ThreadStart "play_youtube" (media_path c)
                                 :: log w') w'))
            else if String.eqb (action c) "play_local" then
              (Raise AttributeError, (record_trigger e now σ.1, w'))
            else (Ret tt, (record_trigger e now σ.1, w'))
        end
  end.
Proof.
  destruct σ as [s w]. unfold trigger_action. unfold_monad. cbn [fst snd].
  destruct (last_trigger_time s !! e) as [last|]; [|done].
  destruct (Qltb _ _); [done|].
  destruct (config_expressions s !! e) as [c|]; [|done]. cbn zeta.
  destruct (String.eqb (action c) "play_youtube"); [done|].
  by destruct (String.eqb (action c) "play_local").
Qed.

(** A dispatch leaves [self] alone or records its time for its expression,
    and then only at least a cooldown after the time recorded before. *)
Lemma trigger_action_self e now σ :
  (trigger_action e now σ).2.1 = σ.1 ∨
  ∃ last, last_trigger_time σ.1 !! e = Some last ∧
          (trigger_cooldown σ.1 <= now - last)%Q ∧
          (trigger_action e now σ).2.1 = record_trigger e now σ.1.
Proof.
  rewrite trigger_action_eq.
  destruct (last_trigger_time σ.1 !! e) as [last|]; [|by left].
  destruct (Qltb _ _) eqn:Hgate; [by left|]. apply Qltb_false in Hgate.
  right. exists last. split; [done|]. split; [done|].
  destruct (config_expressions σ.1 !! e) as [c|]; [|done]. cbn zeta.
  destruct (String.eqb (action c) "play_youtube"); [done|].
  by destruct (String.eqb (action c) "play_local").
Qed.

Lemma dispatch_all_dom calls σ :
  dom (last_trigger_time (dispatch_all calls σ).1) = dom (last_trigger_time σ.1).
Proof.
  revert σ. induction calls as [|[e t] rest IH]; intros σ; [done|].
  simpl. rewrite IH.
  destruct (trigger_action_self e t σ) as [-> | (last & Hlast & _ & ->)]; [done|].
  simpl. rewrite dom_insert_L.
  assert (e ∈ dom (last_trigger_time σ.1)) by (apply elem_of_dom; eauto).
  set_solver.
Qed.

Lemma trigger_action_json_eq config e now σ :
  trigger_action_json config e now σ =
  match last_trigger_time σ.1 !! e with
  | None => (Raise KeyError, σ)
  | Some last =>
      if Qltb (now - last) (trigger_cooldown σ.1) then (Ret tt, σ)
      else
        let s1 := record_trigger e now σ.1 in
        match config with
        | None => (Raise KeyError, (s1, σ.2))
        | Some expressions =>
            match expressions !! e with
            | None => (Ret tt, (s1, σ.2))
            | Some entry =>
                if decide (entry = ∅) then (Ret tt, (s1, σ.2))
                else
                  match entry !! "action", entry !! "media_path",
                        entry !! "description" with
                  | Some act, Some path, Some desc =>
                      let w' := set_log (Print ("Triggered: " +:+ e +:+ " -> "
                                                  +:+ desc) :: log σ.2) σ.2 in
                      if String.eqb act "play_youtube" then
                        (Ret tt, (s1, set_log (ThreadStart "play_youtube" path
                                               :: log w') w'))
                      else if String.eqb act "play_local" then
                        (Raise AttributeError, (s1, w'))
                      else (Ret tt, (s1, w'))
                  | _, _, _ => (Raise KeyError, (s1, σ.2))
                  end
            end
        end
  end.
Proof.
  destruct σ as [s w]. unfold trigger_action_json, getitem.
  unfold_monad. cbn [fst snd].
  destruct (last_trigger_time s !! e) as [last|]; [|done].
  destruct (Qltb _ _); [done|]. cbn zeta.
  destruct config as [expressions|]; [|done].
  destruct (expressions !! e) as [entry|]; [|done].
  destruct (decide (entry = ∅)); [done|].
  destruct (entry !! "action") as [act|]; [|done].
  destruct (entry !! "media_path") as [path|]; [|done].
  destruct (entry !! "description") as [desc|]; [|done].
  destruct (String.eqb act "play_youtube"); [done|].
  by destruct (String.eqb act "play_local").
Qed.

Lemma complete_entry_lookup c :
  complete_entry c ≠ ∅ ∧
  complete_entry c !! "action" = Some (action c) ∧
  complete_entry c !! "media_path" = Some (media_path c) ∧
  complete_entry c !! "description" = Some (description c).
Proof.
  unfold complete_entry. split; [apply insert_non_empty|].
  split; [apply lookup_insert_eq|].
  split; [by rewrite lookup_insert_ne, lookup_insert_eq|].
  do 2 rewrite lookup_insert_ne by done. apply lookup_insert_eq.
Qed.

(** On a configuration whose entries all carry the three keys the
    dispatcher is [trigger_action]. *)
Lemma trigger_action_json_complete e now σ :
  trigger_action_json (complete_config (config_expressions σ.1)) e now σ
  = trigger_action e now σ.
Proof.
  rewrite trigger_action_json_eq, trigger_action_eq. unfold complete_config.
  destruct (last_trigger_time σ.1 !! e) as [last|]; [|done].
  destruct (Qltb _ _); [done|]. cbn zeta.
  rewrite lookup_fmap.
  destruct (config_expressions σ.1 !! e) as [c|]; [|done]. cbn [fmap option_fmap option_map].
  destruct (complete_entry_lookup c) as (Hne & -> & -> & ->).
  by destruct (decide (complete_entry c = ∅)).
Qed.

(** A dispatch leaves [self] alone or records its time for its expression,
    whatever the configuration. *)
Lemma trigger_action_json_self config e now σ :
  (trigger_action_json config e now σ).2.1 = σ.1 ∨
  (passes_gate e now σ ∧
   (trigger_action_json config e now σ).2.1 = record_trigger e now σ.1).
Proof.
  rewrite trigger_action_json_eq. unfold passes_gate.
  destruct (last_trigger_time σ.1 !! e) as [last|]; [|by left].
  destruct (Qltb _ _) eqn:Hgate; [by left|]. apply Qltb_false in Hgate.
  right. split; [by exists last|]. cbn zeta.
  destruct config as [expressions|]; [|done].
  destruct (expressions !! e) as [entry|]; [|done].
  destruct (decide (entry = ∅)); [done|].
  destruct (entry !! "action") as [act|]; [|done].
  destruct (entry !! "media_path") as [path|]; [|done].
  destruct (entry !! "description") as [desc|]; [|done].
  destruct (String.eqb act "play_youtube"); [done|].
  by destruct (String.eqb act "play_local").
Qed.

Lemma dispatch_all_json_dom config calls σ :
  dom (last_trigger_time (dispatch_all_json config calls σ).1)
  = dom (last_trigger_time σ.1).
Proof.
  revert σ. induction calls as [|[e t] rest IH]; intros σ; [done|].
  simpl. rewrite IH.
  destruct (trigger_action_json_self config e t σ)
    as [-> | [(last & Hlast & _) ->]]; [done|].
  simpl. rewrite dom_insert_L.
  assert (e ∈ dom (last_trigger_time σ.1)) by (apply elem_of_dom; eauto).
  set_solver.
Qed.

(** A dispatch outside the window on a configuration that lacks a key
    raises [KeyError] with the time recorded and nothing else done. *)
Lemma trigger_action_json_lacks_key config e now σ :
  passes_gate e now σ →
  ((trigger_action_json config e now σ).1 = Raise KeyError
   ↔ lacks_key config e) ∧
  (lacks_key config e →
   (trigger_action_json config e now σ).2 = (record_trigger e now σ.1, σ.2)).
Proof.
  intros (last & Hlast & Hge). apply Qltb_false in Hge.
  rewrite trigger_action_json_eq, Hlast, Hge. cbn zeta.
  unfold lacks_key, incomplete.
  destruct config as [expressions|]; [|done].
  destruct (expressions !! e) as [entry|]; [|by split; [split|]].
  destruct (decide (entry = ∅)) as [->|Hne].
  { split; [split; [done | by intros [? _]] | by intros [? _]]. }
  destruct (entry !! "action") as [act|];
    [|by split; [split; [|]; [intros _; split; [|left] |] |]].
  destruct (entry !! "media_path") as [path|];
    [|by split; [split; [|]; [intros _; split; [|right; left] |] |]].
  destruct (entry !! "description") as [desc|];
    [|by split; [split; [|]; [intros _; split; [|right; right] |] |]].
  assert (¬ (entry ≠ ∅ ∧ (Some act = None ∨ Some path = None ∨ Some desc = None)))
    as Hno by (intros [_ [?|[?|?]]]; done).
  destruct (String.eqb act "play_youtube");
    [by split; [split; [|intros ?; destruct Hno] | intros ?; destruct Hno]|].
  destruct (String.eqb act "play_local");
    by split; [split; [|intros ?; destruct Hno] | intros ?; destruct Hno].
Qed.

(** X5.  The cooldown table of an instance has the three built-in
    expressions as keys, before and after any dispatches, whatever
    [config.json] holds.  A dispatch raises [KeyError] in two cases and no
    other.  For a name other than these three it raises at line 146 and
    changes nothing.  For one of the three, outside the cooldown window,
    it raises when the configuration has no "expressions" or the entry of
    the expression is a non-empty dict lacking "action", "media_path" or
    "description"; by then the time of the dispatch has been recorded, so
    the cooldown runs although nothing was printed and no action
    started. *)
Theorem trigger_action_key_error (config : JsonConfig)
    (cfg : gmap string ExprConfig) (w : World)
    (calls : list (string * Q)) (e : string) (now : Q) :
  let σ := dispatch_all_json config calls (init cfg, w) in
  let unknown := e ≠ "eyebrow_raise" ∧ e ≠ "wink" ∧ e ≠ "smile" in
  ((trigger_action_json config e now σ).1 = Raise KeyError
   ↔ unknown ∨ (passes_gate e now σ ∧ lacks_key config e)) ∧
  (unknown → (trigger_action_json config e now σ).2 = σ) ∧
  (passes_gate e now σ → lacks_key config e →
   (trigger_action_json config e now σ).2 = (record_trigger e now σ.1, σ.2)) ∧
  (passes_gate e now σ → ¬ unknown).
Proof.
  intros σ unknown.
  assert (dom (last_trigger_time σ.1)
          = ({["eyebrow_raise"; "wink"; "smile"]} : gset string)) as Hdom.
  { unfold σ. rewrite dispatch_all_json_dom. simpl.
    rewrite !dom_insert_L, dom_empty_L. set_solver. }
  assert (last_trigger_time σ.1 !! e = None ↔ unknown) as Hnone.
  { rewrite <- not_elem_of_dom, Hdom. unfold unknown. set_solver. }
  assert (passes_gate e now σ → ¬ unknown) as Hknown.
  { intros (last & Hlast & _) Hu. apply Hnone in Hu. congruence. }
  assert (unknown → trigger_action_json config e now σ = (Raise KeyError, σ))
    as Hraise.
  { intros Hu. apply Hnone in Hu. by rewrite trigger_action_json_eq, Hu. }
  split; [|split; [|split]].
  - split.
    + intros Hr.
      destruct (last_trigger_time σ.1 !! e) as [last|] eqn:Hlast;
        [|left; by apply Hnone].
      right. destruct (Qltb (now - last) (trigger_cooldown σ.1)) eqn:Hgate.
      { rewrite trigger_action_json_eq, Hlast, Hgate in Hr. done. }
      apply Qltb_false in Hgate.
      assert (passes_gate e now σ) as Hp by (by exists last).
      split; [done|].
      by apply (trigger_action_json_lacks_key config e now σ Hp).
    + intros [Hu | [Hp Hl]]; [by rewrite Hraise|].
      by apply (trigger_action_json_lacks_key config e now σ Hp).
  - intros Hu. by rewrite Hraise.
  - intros Hp. by apply (trigger_action_json_lacks_key config e now σ Hp).
  - done.
Qed.

(** With a window of 3, a wink dispatched at 10 on a fresh instance whose
    entry for the wink has only the action raises [KeyError], and 10 is
    recorded. *)
Lemma trigger_action_key_error_witness :
  let config : JsonConfig :=
    Some {[ "wink" := {[ "action" := "play_youtube" ]} ]} in
  let r := trigger_action_json config "wink" 10
             (init default_expressions, kind_world) in
  r.1 = Raise KeyError ∧ last_trigger_time r.2.1 !! "wink" = Some 10%Q.
Proof.
  intros config r.
  pose proof (trigger_action_key_error config default_expressions kind_world
                [] "wink" 10) as (Hiff & _ & Hrec & _).
  assert (passes_gate "wink" 10 (init default_expressions, kind_world)) as Hp.
  { exists 0%Q. split; [reflexivity | vm_compute; discriminate]. }
  assert (lacks_key config "wink") as Hl.
  { split; [|right; left; reflexivity].
    intros H. apply (f_equal (λ m : JsonEntry, m !! "action")) in H.
    discriminate H. }
  split.
  - apply Hiff. right. by split.
  - pose proof (Hrec Hp Hl) as Heq. cbn [dispatch_all_json] in Heq.
    unfold r. rewrite Heq. reflexivity.
Defined.



(** X7.  Along any sequence of dispatches, for any expressions at any
    times, the time recorded for an expression is either the one recorded
    at the start or the time of one of its dispatches, at least a cooldown
    later than the one recorded at the start: recorded times of an
    expression never come closer than the cooldown. *)
Theorem dispatch_all_recorded_time (calls : list (string * Q)) (σ : St)
    (e : string) (t0 : Q) :
  (0 <= trigger_cooldown σ.1)%Q →
  last_trigger_time σ.1 !! e = Some t0 →
  ∃ t, last_trigger_time (dispatch_all calls σ).1 !! e = Some t ∧
       (t = t0 ∨ ((trigger_cooldown σ.1 <= t - t0)%Q ∧ (e, t) ∈ calls)).
Proof.
  revert σ t0. induction calls as [|[e' t'] rest IH]; intros σ t0 Hcd Ht0.
  - exists t0. split; [done | by left].
  - simpl.
    destruct (trigger_action_self e' t' σ)
      as [Hsame | (last & Hlast & Hge & Hrec)].
    + destruct (IH (trigger_action e' t' σ).2 t0) as (t & Ht & Hor);
        [by rewrite Hsame..|].
      exists t. split; [done|]. rewrite Hsame in Hor.
      destruct Hor as [->|[H1 H2]]; [by left|].
      right. split; [done | by apply elem_of_cons; right].
    + assert (trigger_cooldown (trigger_action e' t' σ).2.1
              = trigger_cooldown σ.1) as Hcd' by (by rewrite Hrec).
      destruct (decide (e' = e)) as [->|Hne].
      * assert (last = t0) as -> by congruence.
        destruct (IH (trigger_action e t' σ).2 t') as (t & Ht & Hor).
        { by rewrite Hcd'. }
        { rewrite Hrec. simpl. apply lookup_insert_eq. }
        exists t. split; [done|]. right. rewrite Hcd' in Hor.
        destruct Hor as [->|[H1 H2]].
        -- split; [done | by apply elem_of_cons; left].
        -- split; [lra | by apply elem_of_cons; right].
      * destruct (IH (trigger_action e' t' σ).2 t0) as (t & Ht & Hor).
        { by rewrite Hcd'. }
        { rewrite Hrec. simpl. by rewrite lookup_insert_ne. }
        exists t. split; [done|]. rewrite Hcd' in Hor.
        destruct Hor as [->|[H1 H2]]; [by left|].
        right. split; [done | by apply elem_of_cons; right].
Qed.

(** Three smiles dispatched at 10, 12 and 14 with a window of 3: 10 is
    recorded, 12 is suppressed, 14 is recorded. *)
Lemma dispatch_all_recorded_time_witness :
  ∃ t, last_trigger_time
         (dispatch_all [("smile", 10%Q); ("smile", 12%Q); ("smile", 14%Q)]
            (init default_expressions, kind_world)).1 !! "smile" = Some t ∧
       (t = 0%Q ∨ ((3 <= t - 0)%Q ∧
                   ("smile", t) ∈ [("smile", 10%Q); ("smile", 12%Q); ("smile", 14%Q)])).
Proof.
  apply (dispatch_all_recorded_time
           [("smile", 10%Q); ("smile", 12%Q); ("smile", 14%Q)]
           (init default_expressions, kind_world) "smile" 0%Q).
  - vm_compute. discriminate.
  - reflexivity.
Defined.

(** X8.  A dispatch starts a thread in one case only: it passes the
    cooldown gate and the entry of the expression carries "action",
    "media_path" and "description" with the action [play_youtube]; the
    thread is then the link opener on the configured URL.  Suppressed
    dispatches, unknown names, a configuration without "expressions",
    entries that are missing, empty or lack one of the three keys, and any
    other action start nothing. *)
Theorem trigger_action_threads (config : JsonConfig) (e : string) (now : Q)
    (σ : St) :
  threads_started (trigger_action_json config e now σ).2.2
  = match last_trigger_time σ.1 !! e, config ≫= (.!! e) with
    | Some last, Some entry =>
        match entry !! "action", entry !! "media_path",
              entry !! "description" with
        | Some act, Some path, Some _ =>
            if Qgeb (now - last) (trigger_cooldown σ.1)
               && String.eqb act "play_youtube"
            then ThreadStart "play_youtube" path :: threads_started σ.2
            else threads_started σ.2
        | _, _, _ => threads_started σ.2
        end
    | _, _ => threads_started σ.2
    end.
Proof.
  rewrite trigger_action_json_eq. unfold Qgeb.
  destruct (last_trigger_time σ.1 !! e) as [last|]; [|done].
  destruct (Qltb _ _); simpl.
  { destruct config as [expressions|]; [|done]. simpl.
    destruct (expressions !! e) as [entry|]; [|done].
    by repeat case_match. }
  destruct config as [expressions|]; [|done]. simpl.
  destruct (expressions !! e) as [entry|]; [|done].
  destruct (decide (entry = ∅)) as [->|Hne]; [done|].
  destruct (entry !! "action") as [act|]; [|done].
  destruct (entry !! "media_path") as [path|]; [|done].
  destruct (entry !! "description") as [desc|]; [|done].
  destruct (String.eqb act "play_youtube"); [done|].
  by destruct (String.eqb act "play_local").
Qed.

(** ** Playback controller: idempotence, release, round trip *)

(** X9.  Pausing twice is pausing once: the second [pause_music] sends no
    signal and changes nothing. *)
Theorem pause_music_idempotent (σ : St) :
  pause_music (pause_music σ).2 = (Ret tt, (pause_music σ).2).
Proof.
  rewrite (pause_music_eq σ).
  destruct (audio_process σ.1) as [p|] eqn:Hp.
  - destruct (is_paused σ.1) eqn:Hq; cbn [snd];
      rewrite pause_music_eq; cbn [fst snd]; simpl; by rewrite Hp, ?Hq.
  - cbn [snd]. rewrite pause_music_eq. by rewrite Hp.
Qed.

(** X10.  [stop_music] always releases the handle: afterwards the handle
    is null and [is_paused] is false, and no process is left on which
    [terminate()] has not been called.  If there was a process in the
    handle, [terminate()] is called on it and "Music stopped" printed, and
    nothing else is done: in particular no signal 18 is sent first, also
    when the process is suspended.  Stopping again does nothing. *)
Theorem stop_music_releases (σ : St) :
  playback_inv σ →
  audio_process (stop_music σ).2.1 = None ∧
  is_paused (stop_music σ).2.1 = false ∧
  children (stop_music σ).2.2 = [] ∧
  (∀ p, audio_process σ.1 = Some p →
        log (stop_music σ).2.2 = Print "Music stopped" :: Terminate p :: log σ.2) ∧
  stop_music (stop_music σ).2 = (Ret tt, (stop_music σ).2).
Proof.
  intros (_ & Hq & Hc & _). rewrite (stop_music_eq σ).
  destruct (audio_process σ.1) as [p|] eqn:Hp; cbn [fst snd].
  - simpl. split; [done|]. split; [done|]. split.
    { rewrite Hc. unfold owned. rewrite Hp. simpl.
      by rewrite filter_cons_False by (by intros ?). }
    split; [by intros ? [= ->]|]. by rewrite stop_music_eq.
  - split; [done|]. split.
    { destruct (is_paused σ.1); [|done]. by destruct Hq. }
    split; [by rewrite Hc; unfold owned; rewrite Hp|].
    split; [done|]. by rewrite stop_music_eq, Hp.
Qed.

Lemma stop_music_releases_witness :
  let σ := (play_music 10 (loaded_state kind_world)).2 in
  children σ.2 = [0] ∧ children (stop_music σ).2.2 = [].
Proof.
  intros σ. split; [reflexivity|].
  apply (stop_music_releases σ).
  apply playback_inv_intro; [intros _; discriminate | reflexivity].
Defined.

(** X11.  [play_music] while the music plays does nothing: no second
    process is spawned, no signal is sent. *)
Theorem play_music_while_playing (h : nat) (p : Proc) (σ : St) :
  controller_reachable σ →
  audio_process σ.1 = Some p → is_paused σ.1 = false →
  play_music h σ = (Ret tt, σ).
Proof.
  intros Hreach Hp Hq. apply (play_music_playing h σ p); [|done..].
  apply (controller_reachable_media σ Hreach). by rewrite Hp.
Qed.

Lemma play_music_while_playing_witness :
  let σ := (play_music 10 (loaded_state kind_world)).2 in
  play_music 10 σ = (Ret tt, σ).
Proof.
  intros σ. apply (play_music_while_playing 10 0 σ).
  - apply reach_play, reach_load, reach_init.
  - reflexivity.
  - reflexivity.
Defined.

Lemma set_is_paused_round_trip s :
  is_paused s = false → set_is_paused false (set_is_paused true s) = s.
Proof. destruct s. simpl. by intros ->. Qed.

(** X12.  Pausing and resuming is a round trip: from a playing controller,
    [pause_music] then [play_music] gives back the same [self], with the
    same handle, having sent the process signal 19 and then signal 18 and
    nothing else. *)
Theorem pause_then_play_round_trip (h : nat) (p : Proc) (σ : St) :
  controller_reachable σ →
  audio_process σ.1 = Some p → is_paused σ.1 = false →
  play_music h (pause_music σ).2
  = (Ret tt,
     (σ.1, set_log (Print "Music resumed" :: SendSignal p 18
                    :: Print "Music paused" :: SendSignal p 19 :: log σ.2) σ.2)).
Proof.
  intros Hreach Hp Hq.
  assert (truthy (music_file σ.1) = true) as Hm
    by (apply (controller_reachable_media σ Hreach); by rewrite Hp).
  rewrite pause_music_eq, Hp, Hq. cbn [snd].
  rewrite (play_music_resume h _ p) by done.
  cbn [fst snd]. by rewrite set_is_paused_round_trip.
Qed.

Lemma pause_then_play_round_trip_witness :
  let σ := (play_music 10 (loaded_state kind_world)).2 in
  (play_music 10 (pause_music σ).2).2.1 = σ.1.
Proof.
  intros σ.
  rewrite (pause_then_play_round_trip 10 0 σ); [reflexivity| |reflexivity..].
  apply reach_play, reach_load, reach_init.
Defined.

(** ** The controller inside the main loop *)

Lemma sampled_fields t e σ :
  audio_process (edge_at t e (sampled_at t σ)).1 = audio_process σ.1 ∧
  is_paused (edge_at t e (sampled_at t σ)).1 = is_paused σ.1 ∧
  music_file (edge_at t e (sampled_at t σ)).1 = music_file σ.1 ∧
  children (edge_at t e (sampled_at t σ)).2 = children σ.2 ∧
  log (edge_at t e (sampled_at t σ)).2 = log σ.2 ∧
  popen_outcome (edge_at t e (sampled_at t σ)).2 = popen_outcome σ.2 ∧
  popen_calls (edge_at t e (sampled_at t σ)).2 = popen_calls σ.2 ∧
  audio_process (sampled_at t σ).1 = audio_process σ.1 ∧
  is_paused (sampled_at t σ).1 = is_paused σ.1 ∧
  music_file (sampled_at t σ).1 = music_file σ.1 ∧
  children (sampled_at t σ).2 = children σ.2 ∧
  log (sampled_at t σ).2 = log σ.2 ∧
  popen_outcome (sampled_at t σ).2 = popen_outcome σ.2.
Proof. by destruct σ as [s w]. Qed.

Lemma playback_inv_fields σ σ' :
  audio_process σ'.1 = audio_process σ.1 → is_paused σ'.1 = is_paused σ.1 →
  children σ'.2 = children σ.2 → playback_inv σ → playback_inv σ'.
Proof.
  intros Ha Hq Hc (_ & H1 & H2 & _). apply playback_inv_intro.
  - by rewrite Ha, Hq.
  - unfold owned in *. by rewrite Ha, Hc.
Qed.

Lemma process_face_playback f : stable (keeps playback_inv) (process_face f).
Proof.
  intros σ Hinv. rewrite process_face_eq. destruct (Qgeb _ _); [|done].
  assert (∀ e, playback_inv (edge_at (clock f) e (sampled_at (clock f) σ))) as He.
  { intros e. destruct (sampled_fields (clock f) e σ)
      as (H1 & H2 & _ & H3 & _).
    by apply (playback_inv_fields σ). }
  destruct (_ && _).
  { eapply playback_effect_inv; [apply play_music_step | apply He]. }
  destruct (_ && _).
  { eapply playback_effect_inv; [apply pause_music_step | apply He]. }
  destruct (sampled_fields (clock f) Rising σ)
    as (_ & _ & _ & _ & _ & _ & _ & H1 & H2 & _ & H3 & _).
  by apply (playback_inv_fields σ).
Qed.

(** X13.  In every state the program can reach, by calls into the
    controller and iterations of the main loop, the invariant of the
    controller holds: [is_paused] only with a handle, and the processes
    spawned on which [terminate()] has not been called are the one of the
    handle, so never more than one. *)
Theorem controller_reachable_playback_inv (σ : St) :
  controller_reachable σ → playback_inv σ.
Proof.
  induction 1 as [| path σ _ IH | h σ _ IH | σ _ IH | σ _ IH | fr σ _ IH].
  - by apply playback_inv_intro.
  - eapply playback_effect_inv; [apply load_music_step | done].
  - eapply playback_effect_inv; [apply play_music_step | done].
  - eapply playback_effect_inv; [apply pause_music_step | done].
  - eapply playback_effect_inv; [apply stop_music_step | done].
  - by apply (stable_loop_iteration (keeps playback_inv) fr
                process_face_playback σ).
Qed.

Lemma controller_reachable_playback_inv_witness :
  let face t n := mkFaceObs (0, 0, 50, 50)%Z (boxes 2) t (boxes n) in
  length (children (loop_iteration (mkFrame true [face 100%Q 1; face 102%Q 0] 0)
                      (loaded_state kind_world)).2.2) ≤ 1.
Proof.
  intros face.
  apply (controller_reachable_playback_inv
           (loop_iteration (mkFrame true [face 100%Q 1; face 102%Q 0] 0)
              (loaded_state kind_world)).2).
  apply reach_frame, reach_load, reach_init.
Defined.

Section Guarded.
Context (I N : St → Prop).

Lemma guarded_ret {A} (a : A) : guarded I N (mret a).
Proof. intros σ H. split; [done | by intros e [=]]. Qed.

Lemma guarded_bind {A B} (m : M A) (f : A → M B) :
  guarded I N m → (∀ a, guarded I N (f a)) → guarded I N (m ≫= f).
Proof.
  intros Hm Hf σ H. unfold mbind, M_bind. destruct (Hm σ H) as [H1 H2].
  destruct (m σ) as [[a|e] σ1]; simpl in *.
  - by apply Hf.
  - split; [done|]. intros e' [= <-]. by apply (H2 e).
Qed.

Lemma guarded_for_each {A} (xs : list A) (body : A → M unit) :
  (∀ x, guarded I N (body x)) → guarded I N (for_each xs body).
Proof.
  intros Hb. induction xs as [|x xs IH]; simpl.
  - apply guarded_ret.
  - apply guarded_bind; [apply Hb | intros _; apply IH].
Qed.

Lemma guarded_loop_iteration fr :
  (∀ f, guarded I N (process_face f)) → guarded I N (loop_iteration fr).
Proof.
  intros Hf. unfold loop_iteration. destruct (negb (ret fr)).
  - apply guarded_ret.
  - apply guarded_bind; [by apply guarded_for_each|].
    intros _. destruct (_ =? _)%Z; apply guarded_ret.
Qed.

Lemma guarded_main_loop frames :
  (∀ f, guarded I N (process_face f)) → guarded I N (main_loop frames).
Proof.
  intros Hf. induction frames as [|fr rest IH]; simpl.
  - apply guarded_ret.
  - apply guarded_bind; [by apply guarded_loop_iteration|].
    intros []; [apply IH | apply guarded_ret].
Qed.
End Guarded.

Lemma run_eq frames σ :
  run frames σ =
  match main_loop frames (after_startup σ) with
  | (Ret _, σ1) => stop_music σ1
  | (Raise e, σ1) => (Raise e, σ1)
  end.
Proof.
  destruct σ as [s w]. unfold run, after_startup, load_music.
  unfold_calls. cbn [fst snd].
  destruct (truthy (configured_music_path s)); cbn [fst snd];
    [destruct (file_exists _ _); cbn [fst snd]|];
    by destruct (main_loop frames _) as [[[]|e] σ1].
Qed.

Lemma print_logged msg σ : only_logged σ (print msg σ).2.
Proof. by repeat split. Qed.

Lemma after_startup_step σ : controller_step σ (after_startup σ).
Proof.
  unfold after_startup.
  do 4 (eapply controller_step_post; [|apply print_logged]).
  destruct (truthy _).
  - eapply controller_step_pre; [apply print_logged | apply load_music_step].
  - apply only_logged_step, print_logged.
Qed.

(** [play_music] raises only out of the branch that spawns, where there is
    no handle, and leaves none. *)
Lemma play_music_raises h σ e :
  (play_music h σ).1 = Raise e → audio_process (play_music h σ).2.1 = None.
Proof.
  revert σ. induction h as [|h IH]; intros σ.
  all: destruct (truthy (music_file σ.1)) eqn:Hm;
    [|by rewrite play_music_no_media].
  all: destruct (audio_process σ.1) as [p|] eqn:Hp;
    [destruct (is_paused σ.1) eqn:Hq;
     [by rewrite (play_music_resume _ _ p)
     |by rewrite (play_music_playing _ _ p)]|].
  all: destruct (popen_outcome σ.2 (popen_calls σ.2)) as [|e0] eqn:Ho;
    [by rewrite play_music_spawn|].
  all: destruct (decide (e0 = FileNotFoundError)) as [->|He];
    [|by rewrite (play_music_spawn_error _ _ e0)].
  all: destruct (run_outcome σ.2 (run_calls σ.2)) as [|e1] eqn:Hr;
    [|destruct (decide (e1 = CalledProcessError)) as [->|He];
      [by rewrite play_music_install_fails
      |by rewrite (play_music_install_error _ _ e1)]].
  all: rewrite play_music_retry by done; unfold try_except.
  - unfold raise. by destruct (decide _).
  - set (σ2 := (σ.1, after_run_call install_args (before_install σ).2)).
    specialize (IH σ2).
    destruct (play_music h σ2) as [[[]|e2] σ3]; simpl in IH |- *; [done|].
    destruct (decide (e2 = CalledProcessError)); simpl; [done | exact IH].
Qed.

Lemma process_face_guarded_playback f :
  guarded playback_inv (λ σ, audio_process σ.1 = None) (process_face f).
Proof.
  intros σ Hinv. split; [by apply process_face_playback|].
  rewrite process_face_eq. destruct (Qgeb _ _); [|by intros e [=]].
  destruct (_ && _); [intros e; apply play_music_raises|].
  destruct (_ && _); [|by intros e [=]].
  intros e. rewrite pause_music_eq. by repeat case_match.
Qed.

(** X14.  [run] calls [terminate()] on every player process it spawns.
    Whatever the configuration, the file system, the outcomes of spawning
    and installing, and the frames, and whether [run] returns or an
    exception escapes from it: at the end the handle is null and no
    process is left on which [terminate()] has not been called. *)
Theorem run_terminates_every_child cfg ex po ru h (frames : list Frame) :
  let σ := (run frames (init cfg, fresh_world ex po ru h)).2 in
  audio_process σ.1 = None ∧ children σ.2 = [].
Proof.
  intros σ.
  assert (playback_inv (after_startup (init cfg, fresh_world ex po ru h))) as H0.
  { eapply playback_effect_inv; [apply after_startup_step|].
    by apply playback_inv_intro. }
  assert (playback_inv σ ∧ audio_process σ.1 = None) as [(_ & _ & Hc & _) Hn].
  { unfold σ. rewrite run_eq.
    destruct (guarded_main_loop playback_inv (λ σ, audio_process σ.1 = None)
                frames process_face_guarded_playback _ H0) as [H1 H2].
    destruct (main_loop frames _) as [[[]|e] σ1]; simpl in H1, H2.
    - split.
      + eapply playback_effect_inv; [apply stop_music_step | done].
      + rewrite stop_music_eq. by destruct (audio_process σ1.1) eqn:E.
    - split; [done | by apply (H2 e)]. }
  split; [done|]. rewrite Hc. unfold owned. by rewrite Hn.
Qed.

(** ** Running without media *)

Lemma silent_fields evs σ σ' :
  music_file σ'.1 = music_file σ.1 → audio_process σ'.1 = audio_process σ.1 →
  process_events σ'.2 = process_events σ.2 → silent evs σ → silent evs σ'.
Proof. intros H1 H2 H3 (Hm & Hp & He). unfold silent. by rewrite H1, H2, H3. Qed.

Lemma silent_print evs msg σ : silent evs σ → silent evs (print msg σ).2.
Proof. by apply silent_fields. Qed.

Lemma process_face_silent evs f :
  guarded (silent evs) (λ _, False) (process_face f).
Proof.
  intros σ Hs. rewrite process_face_eq. destruct (Qgeb _ _);
    [|split; [done | by intros e [=]]].
  assert (∀ e, silent evs (edge_at (clock f) e (sampled_at (clock f) σ))) as He.
  { intros e. apply (silent_fields evs σ); [by destruct σ..|done]. }
  destruct (_ && _).
  { rewrite play_music_no_media by apply He.
    split; [apply He | by intros e [=]]. }
  destruct (_ && _).
  { destruct (He Falling) as (_ & Hp & _).
    rewrite pause_music_eq, Hp. split; [apply He | by intros e [=]]. }
  split; [|by intros e [=]].
  apply (silent_fields evs σ); [by destruct σ..|done].
Qed.

Lemma run_silent (frames : list Frame) (evs : list Event) (σ : St) :
  silent evs σ →
  (∀ path, configured_music_path σ.1 = Some path → file_exists σ.2 path = false) →
  (run frames σ).1 = Ret tt ∧ silent evs (run frames σ).2.
Proof.
  intros Hs Hno.
  assert (silent evs (after_startup σ)) as H0.
  { unfold after_startup. cbv zeta. do 4 apply silent_print.
    set (σ1 := (print _ σ).2).
    assert (silent evs σ1) as H1 by (by apply silent_print).
    destruct (truthy (configured_music_path σ1.1)) eqn:Ht; [|done].
    destruct (configured_music_path σ1.1) as [path|] eqn:Hpath; [|done].
    rewrite load_music_eq. cbn [default from_option]. unfold id.
    assert (file_exists σ1.2 path = false) as -> by (by apply Hno).
    by apply (silent_fields evs σ1). }
  rewrite run_eq.
  destruct (guarded_main_loop (silent evs) (λ _, False) frames
              (process_face_silent evs) _ H0) as [H1 H2].
  destruct (main_loop frames _) as [[[]|e] σ1]; simpl in H1, H2.
  - destruct H1 as (Hm & Hp & He). rewrite stop_music_eq, Hp. by split.
  - by destruct (H2 e).
Qed.



(** ** Playback follows the smile *)

Lemma follows_smile_fields σ σ' :
  music_file σ'.1 = music_file σ.1 → popen_outcome σ'.2 = popen_outcome σ.2 →
  is_smiling σ'.1 = is_smiling σ.1 → audio_process σ'.1 = audio_process σ.1 →
  is_paused σ'.1 = is_paused σ.1 → follows_smile σ → follows_smile σ'.
Proof.
  intros H1 H2 H3 H4 H5 (Hm & Ho & Hs). unfold follows_smile, playback_state.
  by rewrite H1, H2, H3, H4, H5.
Qed.

Lemma process_face_follows_smile f :
  guarded follows_smile (λ _, False) (process_face f).
Proof.
  intros σ Hf. pose proof Hf as (Hm & Ho & Hs).
  rewrite process_face_eq. destruct (Qgeb _ _);
    [|split; [done | by intros e [=]]].
  unfold playback_state in Hs.
  destruct (detect_smile_state (smiles f)), (is_smiling σ.1) eqn:Hcur;
    cbn [andb negb].
  - split; [|by intros e [=]].
    apply (follows_smile_fields σ); by destruct σ.
  - set (σ2 := edge_at (clock f) Rising (sampled_at (clock f) σ)).
    assert (truthy (music_file σ2.1) = true) as Hm2 by (by destruct σ).
    destruct (audio_process σ.1) as [p|] eqn:Hp.
    + assert (is_paused σ.1 = true) as Hq.
      { destruct (is_paused σ.1); [done|]. by destruct Hs as [_ Hs]; discriminate Hs. }
      rewrite (play_music_resume _ σ2 p); [|done|by destruct σ..].
      split; [|by intros e [=]].
      unfold follows_smile, playback_state. destruct σ as [s w]. simpl in *.
      rewrite Hp. by repeat split.
    + rewrite play_music_spawn; [|done|by destruct σ|destruct σ; apply Ho].
      split; [|by intros e [=]].
      unfold follows_smile, playback_state. destruct σ as [s w]. simpl in *.
      by repeat split.
  - set (σ2 := edge_at (clock f) Falling (sampled_at (clock f) σ)).
    destruct (is_paused σ.1) eqn:Hq; [by destruct Hs as [Hs _]; discriminate Hs|].
    destruct (audio_process σ.1) as [p|] eqn:Hp;
      [|by destruct Hs as [Hs _]; discriminate Hs].
    rewrite pause_music_eq.
    assert (audio_process σ2.1 = Some p) as -> by (by destruct σ).
    assert (is_paused σ2.1 = false) as -> by (by destruct σ).
    split; [|by intros e [=]].
    unfold follows_smile, playback_state. destruct σ as [s w]. simpl in *.
    by repeat split.
  - split; [|by intros e [=]].
    apply (follows_smile_fields σ); by destruct σ.
Qed.

(** X16.  With media loaded and a player that can always be spawned, the
    music plays exactly while [is_smiling] holds, at every turn of the main
    loop: started or resumed at a rising edge, suspended at a falling one;
    and the loop never raises. *)
Theorem main_loop_follows_smile (frames : list Frame) (σ : St) :
  follows_smile σ →
  (main_loop frames σ).1 = Ret tt ∧ follows_smile (main_loop frames σ).2.
Proof.
  intros H0.
  destruct (guarded_main_loop follows_smile (λ _, False) frames
              process_face_follows_smile σ H0) as [H1 H2].
  split; [|done].
  destruct (main_loop frames σ) as [[[]|e] σ1]; [done|]. by destruct (H2 e).
Qed.

Lemma main_loop_follows_smile_witness :
  let face t n := mkFaceObs (0, 0, 50, 50)%Z (boxes 2) t (boxes n) in
  let frames := [mkFrame true [face 100%Q 1] 0; mkFrame true [face 102%Q 0] 0;
                 mkFrame true [face 104%Q 1] 0] in
  let σ := (main_loop frames (loaded_state kind_world)).2 in
  is_smiling σ.1 = true ↔ playback_state σ.1 = Playing.
Proof.
  intros face frames σ.
  apply (main_loop_follows_smile frames (loaded_state kind_world)).
  by repeat split.
Defined.

(** ** Leaving the loop, sampling *)

Lemma loop_iteration_ends fr σ :
  ends_loop fr →
  (loop_iteration fr σ).1 = Ret Break ∨ ∃ e, (loop_iteration fr σ).1 = Raise e.
Proof.
  intros Hend. rewrite loop_iteration_eq.
  destruct (ret fr) eqn:Hret; cbn [negb]; [|by left].
  destruct Hend as [|Hkey]; [congruence|].
  destruct (for_each _ _ _) as [[[]|e] σ1]; [|right; by exists e].
  left. simpl. by rewrite Hkey.
Qed.

(** X17.  The loop ends at the first frame on which the camera fails or the
    quit key (any key code whose low byte is that of [q]) is pressed:
    frames after it are never looked at.  A frame on which the camera
    fails is itself not processed, faces or not. *)
Theorem main_loop_ends (pre post : list Frame) (fr : Frame) (σ : St) :
  ends_loop fr →
  main_loop (pre ++ fr :: post) σ = main_loop (pre ++ [fr]) σ ∧
  (ret fr = false → main_loop (pre ++ fr :: post) σ = main_loop pre σ).
Proof.
  intros Hend. revert σ. induction pre as [|fr0 pre IH]; intros σ.
  - simpl. unfold mbind, M_bind.
    destruct (loop_iteration_ends fr σ Hend) as [H|[e H]].
    + destruct (loop_iteration fr σ) as [[c|e] σ1] eqn:E; simpl in H;
        [|done]. injection H as ->. split; [done|].
      intros Hret. rewrite loop_iteration_eq, Hret in E. by injection E as <-.
    + destruct (loop_iteration fr σ) as [[c|e'] σ1] eqn:E; simpl in H; [done|].
      split; [done|]. intros Hret.
      rewrite loop_iteration_eq, Hret in E. discriminate E.
  - simpl. unfold mbind, M_bind.
    destruct (loop_iteration fr0 σ) as [[[]|e] σ1]; [apply IH|done..].
Qed.

Lemma main_loop_ends_witness :
  let face t n := mkFaceObs (0, 0, 50, 50)%Z (boxes 2) t (boxes n) in
  let quit := mkFrame true [face 100%Q 0] (113 + 256) in
  main_loop ([] ++ quit :: [mkFrame true [face 102%Q 1] 0]) (loaded_state kind_world)
  = main_loop ([] ++ [quit]) (loaded_state kind_world).
Proof.
  intros face quit.
  apply (main_loop_ends [] [mkFrame true [face 102%Q 1] 0] quit
           (loaded_state kind_world)).
  right. reflexivity.
Defined.

(** X18.  Whenever a face is sampled, that is when its clock reading is at
    least the interval after the last sample, [is_smiling] afterwards is
    the smile state the cascade reported for the face and the sampler's
    clock is the reading; this holds also when the call of [play_music]
    that follows raises. *)
Theorem process_face_tracks_smile (f : FaceObs) (σ : St) :
  (smile_check_interval σ.1 <= clock f - last_smile_check σ.1)%Q →
  is_smiling (process_face f σ).2.1 = detect_smile_state (smiles f) ∧
  last_smile_check (process_face f σ).2.1 = clock f.
Proof.
  intros Hge. rewrite process_face_eq. apply Qgeb_true in Hge. rewrite Hge.
  destruct (detect_smile_state (smiles f)), (is_smiling σ.1) eqn:Hcur;
    cbn [andb negb].
  - by destruct σ.
  - destruct (play_music_step (recursion_headroom σ.2)
                (edge_at (clock f) Rising (sampled_at (clock f) σ)))
      as [_ (_ & _ & _ & _ & _ & _ & Hs & Hl & _)].
    rewrite Hs, Hl. by destruct σ.
  - destruct (pause_music_step
                (edge_at (clock f) Falling (sampled_at (clock f) σ)))
      as [_ (_ & _ & _ & _ & _ & _ & Hs & Hl & _)].
    rewrite Hs, Hl. by destruct σ.
  - destruct σ as [s w]. simpl in *. by rewrite Hcur.
Qed.

Lemma process_face_tracks_smile_witness :
  is_smiling (process_face (mkFaceObs (0, 0, 50, 50)%Z (boxes 2) 100%Q (boxes 1))
                (init default_expressions, kind_world)).2.1 = true.
Proof.
  apply (process_face_tracks_smile
           (mkFaceObs (0, 0, 50, 50)%Z (boxes 2) 100%Q (boxes 1))
           (init default_expressions, kind_world)).
  vm_compute. discriminate.
Defined.

(** ** What [run] never calls *)

Global Instance undispatched_preorder : PreOrder undispatched.
Proof.
  split.
  - by intros σ.
  - intros σ1 σ2 σ3 (A1 & A2 & A3 & A4 & A5) (B1 & B2 & B3 & B4 & B5).
    unfold undispatched. by rewrite B1, B2, B3, B4, B5.
Qed.

Lemma play_music_undispatched h σ : undispatched σ (play_music h σ).2.
Proof.
  revert σ. induction h as [|h IH]; intros σ.
  all: destruct (truthy (music_file σ.1)) eqn:Hm;
    [|by rewrite play_music_no_media].
  all: destruct (audio_process σ.1) as [p|] eqn:Hp;
    [destruct (is_paused σ.1) eqn:Hq;
     [by rewrite (play_music_resume _ _ p)
     |by rewrite (play_music_playing _ _ p)]|].
  all: destruct (popen_outcome σ.2 (popen_calls σ.2)) as [|e0] eqn:Ho;
    [by rewrite play_music_spawn|].
  all: destruct (decide (e0 = FileNotFoundError)) as [->|He];
    [|by rewrite (play_music_spawn_error _ _ e0)].
  all: destruct (run_outcome σ.2 (run_calls σ.2)) as [|e1] eqn:Hr;
    [|destruct (decide (e1 = CalledProcessError)) as [->|He];
      [by rewrite play_music_install_fails
      |by rewrite (play_music_install_error _ _ e1)]].
  all: rewrite play_music_retry by done; unfold try_except.
  - unfold raise. by destruct (decide _).
  - set (σ2 := (σ.1, after_run_call install_args (before_install σ).2)).
    specialize (IH σ2).
    assert (undispatched σ σ2) as H2 by done.
    destruct (play_music h σ2) as [[[]|e2] σ3]; simpl in IH |- *.
    + by etrans.
    + destruct (decide (e2 = CalledProcessError)); simpl.
      * etrans; [exact H2|]. etrans; [exact IH|]. done.
      * by etrans.
Qed.

Lemma print_undispatched msg σ : undispatched σ (print msg σ).2.
Proof. done. Qed.

Lemma process_face_undispatched f : stable undispatched (process_face f).
Proof.
  intros σ. rewrite process_face_eq. destruct (Qgeb _ _); [|done].
  destruct (_ && _).
  { etrans; [|apply play_music_undispatched]. by destruct σ. }
  destruct (_ && _).
  { rewrite pause_music_eq. destruct σ as [s w]. simpl.
    by repeat case_match. }
  by destruct σ.
Qed.

Lemma run_undispatched frames σ : undispatched σ (run frames σ).2.
Proof.
  rewrite run_eq.
  assert (undispatched σ (after_startup σ)) as H0.
  { unfold after_startup. cbv zeta.
    do 4 (etrans; [|apply print_undispatched]).
    destruct (truthy _); [|apply print_undispatched].
    set (σ1 := (print _ σ).2).
    assert (undispatched σ σ1) as H1 by apply print_undispatched.
    etrans; [exact H1|].
    rewrite load_music_eq. by destruct (file_exists _ _). }
  pose proof (stable_main_loop undispatched frames process_face_undispatched
                (after_startup σ)) as H1.
  destruct (main_loop frames _) as [[[]|e] σ1]; simpl in H1.
  - etrans; [exact H0|]. etrans; [exact H1|].
    rewrite stop_music_eq. by destruct (audio_process σ1.1).
  - by etrans.
Qed.

(** X19.  [run] never calls the wink detector, the smile-onset detector or
    the dispatcher.  Over any execution, on any configuration, the eye
    count, the two run counters and the cooldown table keep the values they
    had, and no thread is started: no configured link is ever opened. *)
Theorem run_never_dispatches (frames : list Frame) (σ : St) :
  last_eye_count (run frames σ).2.1 = last_eye_count σ.1 ∧
  wink_frames (run frames σ).2.1 = wink_frames σ.1 ∧
  smile_frames (run frames σ).2.1 = smile_frames σ.1 ∧
  last_trigger_time (run frames σ).2.1 = last_trigger_time σ.1 ∧
  threads_started (run frames σ).2.2 = threads_started σ.2.
Proof.
  apply run_undispatched.
Qed.

(** X20.  Started without a file [config.json], the program does nothing
    but watch: whatever the camera shows and whatever the world is like,
    [main] returns normally, holds no process, spawns, signals and
    terminates none, attempts no installation and starts no thread. *)
Theorem main_without_config_file (frames : list Frame) ex po ru h :
  let r := main None frames (fresh_world ex po ru h) in
  r.1 = Ret tt ∧ audio_process r.2.1 = None ∧
  process_events r.2.2 = [] ∧ threads_started r.2.2 = [].
Proof.
  intros r. unfold r, main. simpl load_config.
  destruct (run_silent frames []
              (init default_expressions, fresh_world ex po ru h))
    as (Hret & Hm & Hp & He); [by split | by intros path [=] |].
  split; [done|]. split; [done|]. split; [done|].
  apply run_undispatched.
Qed.

(** * Properties of the audio test script *)

Lemma ta_popen_spec env args st :
  match ta_popen env args st with
  | (inr p, st') =>
      p = ta_spawns st ∧ ta_alive st' = p :: ta_alive st ∧
      ta_terminated st' = ta_terminated st
  | (inl e, st') =>
      ta_alive st' = ta_alive st ∧ ta_terminated st' = ta_terminated st
  end.
Proof. unfold ta_popen. by destruct (ta_spawn_result env (ta_spawns st)). Qed.

Lemma ta_sleep_terminate_alive p st :
  ta_alive st = [p] → ta_alive (ta_sleep_terminate p st) = [].
Proof.
  intros H. unfold ta_sleep_terminate. simpl. rewrite H.
  by rewrite filter_cons_False by (by intros ?).
Qed.

Lemma ta_terminated_print msg st :
  ta_terminated (ta_print msg st) = ta_terminated st.
Proof. done. Qed.

Lemma ta_terminated_print_exn prefix e st :
  ta_terminated (ta_print_exn prefix e st) = ta_terminated st.
Proof. done. Qed.

Lemma ta_terminated_sleep_terminate p st :
  ta_terminated (ta_sleep_terminate p st) = p :: ta_terminated st.
Proof. done. Qed.

(** The loop plays at most one player, terminates the one it plays, and
    returns from within only then. *)
Lemma ta_try_players_played env ps st T :
  ta_alive st = [] → ta_terminated st = T →
  ta_alive (ta_try_players env ps st).2 = [] ∧
  (((ta_try_players env ps st).1 = TaReturned ∧
    ∃ p, ta_terminated (ta_try_players env ps st).2 = p :: T) ∨
   ((ta_try_players env ps st).1 ≠ TaReturned ∧
    ta_terminated (ta_try_players env ps st).2 = T)).
Proof.
  revert st. induction ps as [|player rest IH]; intros st Ha HT.
  - simpl. split; [done | by right].
  - cbn [ta_try_players]. unfold ta_run.
    destruct (ta_run_result env _) as [code|e].
    + destruct (code =? 0)%Z; [|by apply IH].
      match goal with |- context [ta_popen env player ?s] =>
        pose proof (ta_popen_spec env player s) as Hp;
        destruct (ta_popen env player s) as [[e|p] st4] end.
      * destruct Hp as [H1 H2].
        change (ta_alive st4 = ta_alive st) in H1.
        change (ta_terminated st4 = ta_terminated st) in H2.
        rewrite Ha in H1. rewrite HT in H2.
        destruct (ta_player_unavailable e); [|by split; [|right]].
        by apply IH.
      * destruct Hp as (-> & H1 & H2). cbn [fst snd].
        change (ta_alive st4 = [ta_spawns st] ++ ta_alive st) in H1.
        change (ta_terminated st4 = ta_terminated st) in H2.
        rewrite Ha in H1. rewrite HT in H2. split.
        -- by apply ta_sleep_terminate_alive.
        -- left. split; [done|]. exists (ta_spawns st).
           by rewrite ta_terminated_print, ta_terminated_sleep_terminate, H2.
    + destruct (ta_player_unavailable e); [by apply IH | by split; [|right]].
Qed.

Lemma ta_install_and_play_played env st :
  ta_alive st = [] →
  ta_alive (ta_install_and_play env st).2 = [] ∧
  length (ta_terminated (ta_install_and_play env st).2)
  ≤ S (length (ta_terminated st)).
Proof.
  intros Ha.
  assert (length (ta_terminated st) ≤ S (length (ta_terminated st))) as Hle by lia.
  unfold ta_install_and_play, ta_run_checked, ta_run, ta_install_failed.
  destruct (ta_run_result env _) as [c1|e1]; cbn [ta_print ta_runs].
  2: { destruct (decide _); split; (exact Ha || exact Hle). }
  destruct (c1 =? 0)%Z; [|split; (exact Ha || exact Hle)].
  destruct (ta_run_result env _) as [c2|e2].
  2: { destruct (decide _); split; (exact Ha || exact Hle). }
  destruct (c2 =? 0)%Z; [|split; (exact Ha || exact Hle)].
  match goal with |- context [ta_popen env ?a ?s] =>
    pose proof (ta_popen_spec env a s) as Hp;
    destruct (ta_popen env a s) as [[e|p] st4] end.
  - destruct Hp as [H1 H2].
    change (ta_alive st4 = ta_alive st) in H1.
    change (ta_terminated st4 = ta_terminated st) in H2.
    destruct (decide _); cbn [fst snd];
      rewrite ?ta_terminated_print_exn, H2; (split; [|exact Hle]);
      by rewrite <- Ha, <- H1.
  - destruct Hp as (-> & H1 & H2). cbn [fst snd].
    change (ta_alive st4 = [ta_spawns st] ++ ta_alive st) in H1.
    change (ta_terminated st4 = ta_terminated st) in H2.
    rewrite Ha in H1. split.
    + by apply ta_sleep_terminate_alive.
    + rewrite ta_terminated_print, ta_terminated_sleep_terminate, H2. simpl. lia.
Qed.

(** X21.  The audio test calls [terminate()] on every process it spawns
    and plays at most once: whatever the file system, the probes, the
    installation and the spawns do, and whether the script returns or an
    exception escapes, at the end no process is left on which
    [terminate()] has not been called, and it has been called on at most
    one. *)
Theorem test_audio_plays_at_most_once (env : TaEnv) :
  ta_alive (test_audio env ta_start).2 = [] ∧
  length (ta_terminated (test_audio env ta_start).2) ≤ 1.
Proof.
  unfold test_audio. destruct (negb (ta_file_exists env)); [split; [done | simpl; lia]|].
  match goal with |- context [ta_try_players env players ?s] =>
    destruct (ta_try_players_played env players s [] eq_refl eq_refl) as [H1 H2];
    destruct (ta_try_players env players s) as [[| |e] st3] end;
    cbn [fst snd] in *.
  - split; [done|]. destruct H2 as [[_ [p ->]]|[? _]]; [simpl; lia | done].
  - destruct H2 as [[? _]|[_ H2]]; [done|].
    destruct (ta_install_and_play_played env st3 H1) as [H3 H4].
    split; [done|]. rewrite H2 in H4. simpl in H4. lia.
  - split; [done|]. destruct H2 as [[? _]|[_ ->]]; [done | simpl; lia].
Qed.

(** What the loop does with players whose probes all fail. *)
Lemma ta_try_players_none env ps st :
  (∀ i, i < length ps → ta_probe_fails (ta_run_result env (ta_runs st + i))) →
  (ta_try_players env ps st).1 = TaFellThrough ∧
  ta_runs (ta_try_players env ps st).2 = ta_runs st + length ps ∧
  ta_spawns (ta_try_players env ps st).2 = ta_spawns st ∧
  ta_alive (ta_try_players env ps st).2 = ta_alive st ∧
  ta_commands (ta_try_players env ps st).2
  = reverse (map ta_probe ps) ++ ta_commands st ∧
  ta_spawn_attempts (ta_try_players env ps st).2 = ta_spawn_attempts st ∧
  ta_terminated (ta_try_players env ps st).2 = ta_terminated st.
Proof.
  revert st. induction ps as [|player rest IH]; intros st Hf.
  - simpl. rewrite Nat.add_0_r. by repeat split.
  - cbn [ta_try_players]. unfold ta_run.
    pose proof (Hf 0 ltac:(simpl; lia)) as H0. rewrite Nat.add_0_r in H0.
    cbn [ta_print ta_runs].
    assert (∀ st', ta_runs st' = S (ta_runs st) →
              ∀ i, i < length rest →
                ta_probe_fails (ta_run_result env (ta_runs st' + i))) as Hrest.
    { intros st' -> i Hi. specialize (Hf (S i) ltac:(simpl; lia)).
      by replace (S (ta_runs st) + i) with (ta_runs st + S i) by lia. }
    assert (reverse (map ta_probe (player :: rest))
            = reverse (map ta_probe rest) ++ [ta_probe player]) as Hrev
      by (simpl; by rewrite reverse_cons).
    destruct (ta_run_result env (ta_runs st)) as [code|e]; simpl in H0.
    + destruct (Z.eqb_spec code 0); [done|].
      match goal with |- context [ta_try_players env rest ?s] =>
        destruct (IH s) as (I1 & I2 & I3 & I4 & I5 & I6 & I7);
        [by apply Hrest|] end.
      rewrite I1, I2, I3, I4, I5, I6, I7, Hrev, <- app_assoc. simpl.
      repeat split; try done; lia.
    + rewrite H0.
      match goal with |- context [ta_try_players env rest ?s] =>
        destruct (IH s) as (I1 & I2 & I3 & I4 & I5 & I6 & I7);
        [by apply Hrest|] end.
      rewrite I1, I2, I3, I4, I5, I6, I7, Hrev, <- app_assoc. simpl.
      repeat split; try done; lia.
Qed.

Lemma ta_try_players_app env pre ps st :
  (∀ i, i < length pre → ta_probe_fails (ta_run_result env (ta_runs st + i))) →
  ta_try_players env (pre ++ ps) st
  = ta_try_players env ps (ta_try_players env pre st).2.
Proof.
  revert st. induction pre as [|player rest IH]; intros st Hf; [done|].
  cbn [app ta_try_players]. unfold ta_run.
  pose proof (Hf 0 ltac:(simpl; lia)) as H0. rewrite Nat.add_0_r in H0.
  cbn [ta_print ta_runs].
  assert (∀ st', ta_runs st' = S (ta_runs st) →
            ∀ i, i < length rest →
              ta_probe_fails (ta_run_result env (ta_runs st' + i))) as Hrest.
  { intros st' -> i Hi. specialize (Hf (S i) ltac:(simpl; lia)).
    by replace (S (ta_runs st) + i) with (ta_runs st + S i) by lia. }
  destruct (ta_run_result env (ta_runs st)) as [code|e]; simpl in H0.
  - destruct (Z.eqb_spec code 0); [done|]. by apply IH, Hrest.
  - rewrite H0. by apply IH, Hrest.
Qed.

Lemma ta_try_players_plays env player rest st :
  ta_run_result env (ta_runs st) = TaExit 0 →
  ta_spawn_result env (ta_spawns st) = TaSpawned →
  (ta_try_players env (player :: rest) st).1 = TaReturned ∧
  ta_commands (ta_try_players env (player :: rest) st).2
  = ta_probe player :: ta_commands st ∧
  ta_spawn_attempts (ta_try_players env (player :: rest) st).2
  = player :: ta_spawn_attempts st ∧
  ta_terminated (ta_try_players env (player :: rest) st).2
  = ta_spawns st :: ta_terminated st ∧
  ta_alive (ta_try_players env (player :: rest) st).2
  = filter (λ q, q ≠ ta_spawns st) (ta_spawns st :: ta_alive st).
Proof.
  intros Hrun Hspawn. cbn [ta_try_players]. unfold ta_run.
  cbn [ta_print ta_runs]. rewrite Hrun. cbn [Z.eqb].
  unfold ta_popen. cbn [ta_print ta_spawns]. by rewrite Hspawn.
Qed.

(** X22.  The players are probed in the order of the list, and the first
    one whose [--version] exits with 0 is the one played: if the probes of
    the [k] players before it fail (non-zero exit, timeout or missing
    binary) and its spawn succeeds, the script probes these [k + 1] players
    and nothing else, spawns that player and no other, terminates it and
    returns; no later player is probed and nothing is installed. *)
Theorem test_audio_first_available (env : TaEnv) (k : nat) (player : list string) :
  ta_file_exists env = true →
  players !! k = Some player →
  (∀ i, i < k → ta_probe_fails (ta_run_result env i)) →
  ta_run_result env k = TaExit 0 →
  ta_spawn_result env 0 = TaSpawned →
  (test_audio env ta_start).1 = TaReturned ∧
  ta_commands (test_audio env ta_start).2
  = reverse (map ta_probe (take (S k) players)) ∧
  ta_spawn_attempts (test_audio env ta_start).2 = [player] ∧
  ta_terminated (test_audio env ta_start).2 = [0] ∧
  ta_alive (test_audio env ta_start).2 = [].
Proof.
  intros Hex Hk Hfail Hrun Hspawn. unfold test_audio. rewrite Hex. cbn [negb].
  set (st2 := ta_print _ (ta_print _ ta_start)).
  rewrite <- (take_drop_middle players k player Hk).
  assert (length (take k players) = k) as Hlen.
  { apply lookup_lt_Some in Hk. rewrite length_take. lia. }
  rewrite ta_try_players_app by (intros i Hi; apply (Hfail i); lia).
  destruct (ta_try_players_none env (take k players) st2)
    as (_ & I2 & I3 & I4 & I5 & I6 & I7); [intros i Hi; apply (Hfail i); lia|].
  set (st3 := (ta_try_players env (take k players) st2).2) in *.
  change (ta_runs st2) with 0 in I2. change (ta_spawns st2) with 0 in I3.
  change (ta_alive st2) with (@nil Proc) in I4.
  change (ta_commands st2) with (@nil (list string)) in I5.
  change (ta_spawn_attempts st2) with (@nil (list string)) in I6.
  change (ta_terminated st2) with (@nil Proc) in I7.
  rewrite Hlen in I2. simpl in I2.
  destruct (ta_try_players_plays env player (drop (S k) players) st3)
    as (P1 & P2 & P3 & P4 & P5); [by rewrite I2 | by rewrite I3|].
  destruct (ta_try_players env (player :: drop (S k) players) st3) as [r st4].
  cbn [fst snd] in *. subst r. cbn [fst snd].
  rewrite P2, P3, P4, P5, I3, I4, I5, I6, I7.
  assert (take (S k) (take k players ++ player :: drop (S k) players)
          = take k players ++ [player]) as ->.
  { rewrite take_app_ge by lia. rewrite Hlen.
    replace (S k - k) with 1 by lia. done. }
  rewrite map_app, reverse_app, app_nil_r. simpl.
  by rewrite filter_cons_False by (by intros ?).
Qed.

(** No [mpg123] (the probe raises [FileNotFoundError]), [ffplay] there. *)
Lemma test_audio_first_available_witness :
  let env := mkTaEnv true "4096"
               (λ n, if n =? 0 then TaRunRaises TaFileNotFoundError else TaExit 0)
               (λ _, TaSpawned) in
  ta_spawn_attempts (test_audio env ta_start).2
  = [["ffplay"; "-nodisp"; "-autoexit"; audio_file]].
Proof.
  intros env.
  apply (test_audio_first_available env 1
           ["ffplay"; "-nodisp"; "-autoexit"; audio_file] eq_refl eq_refl).
  - intros i Hi. assert (i = 0) as -> by lia. reflexivity.
  - reflexivity.
  - reflexivity.
Defined.

Lemma ta_install_update_fails env st code :
  ta_run_result env (ta_runs st) = TaExit code → code ≠ 0%Z →
  ta_install_and_play env st
  = (TaReturned,
     ta_print_exn "Failed to install mpg123: " TaCalledProcessError
       (ta_run env ["sudo"; "apt"; "update"]
          (ta_print "No suitable audio player found. Installing mpg123..." st)).2).
Proof.
  intros Hrun Hcode. unfold ta_install_and_play, ta_run_checked, ta_run.
  cbn [ta_print ta_runs]. rewrite Hrun.
  by destruct (Z.eqb_spec code 0).
Qed.

(** X23.  When the file exists and none of the four players answers its
    probe, the script updates the package index before anything else; if
    that fails with a non-zero exit code it gives up: it returns normally,
    having run the four probes and [apt update] only, without installing
    and without spawning anything, and the last thing it prints is
    "Failed to install mpg123: " followed by the text of the
    [CalledProcessError]. *)
Theorem test_audio_update_fails (env : TaEnv) (code : Z) :
  ta_file_exists env = true →
  (∀ i, i < 4 → ta_probe_fails (ta_run_result env i)) →
  ta_run_result env 4 = TaExit code → code ≠ 0%Z →
  (test_audio env ta_start).1 = TaReturned ∧
  ta_commands (test_audio env ta_start).2
  = ["sudo"; "apt"; "update"] :: reverse (map ta_probe players) ∧
  ta_spawn_attempts (test_audio env ta_start).2 = [] ∧
  head (ta_trace (test_audio env ta_start).2)
  = Some (TaPrintExn "Failed to install mpg123: " TaCalledProcessError).
Proof.
  intros Hex Hfail Hrun Hcode. unfold test_audio. rewrite Hex. cbn [negb].
  set (st2 := ta_print _ (ta_print _ ta_start)).
  destruct (ta_try_players_none env players st2)
    as (I1 & I2 & I3 & I4 & I5 & I6 & I7); [intros i Hi; by apply (Hfail i)|].
  destruct (ta_try_players env players st2) as [r st3]. cbn [fst snd] in *.
  subst r.
  rewrite (ta_install_update_fails env st3 code) by (by rewrite ?I2).
  cbn [fst snd]. repeat split.
  - change (["sudo"; "apt"; "update"] :: ta_commands st3
            = ["sudo"; "apt"; "update"] :: reverse (map ta_probe players)).
    by rewrite I5, app_nil_r.
  - change (ta_spawn_attempts st3 = []). by rewrite I6.
Qed.

Lemma test_audio_update_fails_witness :
  let env := mkTaEnv true "4096"
               (λ n, if n <? 4 then TaRunRaises TaFileNotFoundError else TaExit 100)
               (λ _, TaSpawned) in
  ta_spawn_attempts (test_audio env ta_start).2 = [].
Proof.
  intros env.
  apply (test_audio_update_fails env 100 eq_refl).
  - intros i Hi.
    destruct i as [|[|[|[|i]]]]; (reflexivity || lia).
  - reflexivity.
  - discriminate.
Defined.
